(** * Fixed-step solvers for second-order initial-value problems

    A shallow embedding of [cpp/ode_solver.hpp] (namespace [ode]): the
    [State] sample, the [ODESolver] object with its three integration
    methods, and the static Runge error estimator.

    The C++ code computes on [double].  The embedding is written once over an
    abstract [Scalar] (the operations the header applies to doubles, in the
    order the header applies them), and is then read at two instances:
    the rationals [Q], where every definition runs, and the reals [R], where
    the statements about bounds, monotonicity and termination are proved in
    exact arithmetic. *)

From Stdlib Require Import ZArith List Bool Lia.
From Stdlib Require Import QArith Qabs.
From Stdlib Require Import Reals Lra.
From Equations Require Import Equations.
Import ListNotations.

Set Implicit Arguments.

(** ** The arithmetic of the header *)

Declare Scope scalar_scope.
Delimit Scope scalar_scope with sc.

Class Scalar (T : Type) : Type := {
  lit : Z -> T;            (* an integer literal converted to the scalar type *)
  add : T -> T -> T;
  sub : T -> T -> T;
  mul : T -> T -> T;
  div : T -> T -> T;
  opp : T -> T;
  abs : T -> T;            (* std::abs *)
  pow : T -> T -> T;       (* std::pow *)
  ltb : T -> T -> bool     (* operator< *)
}.

Infix "+" := add : scalar_scope.
Infix "-" := sub : scalar_scope.
Infix "*" := mul : scalar_scope.
Infix "/" := div : scalar_scope.
Notation "- a" := (opp a) : scalar_scope.
Infix "<?" := ltb : scalar_scope.

(** ** Outcomes of a call

    A call either returns, leaves by an exception, runs into undefined
    behaviour (an out-of-range [operator[]] or [back()] on an empty vector),
    or is still running when the fuel given to its loop is used up. *)

Inductive exn : Type :=
| invalid_argument.        (* std::invalid_argument, from <stdexcept> *)

Inductive Outcome (A : Type) : Type :=
| Returned (a : A)
| Raised (e : exn)
| Undefined
| Timeout.

Arguments Returned {A} a.
Arguments Raised {A} e.
Arguments Undefined {A}.
Arguments Timeout {A}.

Section Solver.

Context {T : Type} `{Scalar T}.
Local Open Scope scalar_scope.

(** ** Data *)

Record State : Type := mkState { x : T; y : T; dy : T }.

Definition SecondOrderODE : Type := T -> T -> T -> T.

Record ODESolver : Type := mkODESolver {
  m_ode : SecondOrderODE;
  m_initial_state : State
}.

(** The constructor [ODESolver(ode, x0, y0, dy0)]. *)
Definition construct (ode : SecondOrderODE) (x0 y0 dy0 : T) : ODESolver :=
  mkODESolver ode (mkState x0 y0 dy0).

(** ** Member functions run on the solver object

    The member functions are not [const]: each one receives the object and
    hands it back together with its outcome. *)

Definition M (A : Type) : Type := ODESolver -> ODESolver * Outcome A.

Definition ret {A} (a : A) : M A := fun self => (self, Returned a).

Definition bind {A B} (m : M A) (k : A -> M B) : M B :=
  fun self =>
    match m self with
    | (self', Returned a) => k a self'
    | (self', Raised e) => (self', Raised e)
    | (self', Undefined) => (self', Undefined)
    | (self', Timeout) => (self', Timeout)
    end.

Definition this : M ODESolver := fun self => (self, Returned self).
Definition undefined {A} : M A := fun self => (self, Undefined).
Definition timeout {A} : M A := fun self => (self, Timeout).

Definition defined {A} (o : option A) : M A :=
  match o with
  | Some a => ret a
  | None => undefined
  end.

Notation "v <- m ;; k" := (bind m (fun v => k))
  (at level 61, m at next level, right associativity).
Notation "' pat <- m ;; k" := (bind m (fun v => match v with pat => k end))
  (at level 61, pat pattern, m at next level, right associativity).

(** [while (cond) body]: the guard is evaluated first, and one unit of fuel
    pays for one run of the body. *)
Fixpoint while {St} (fuel : nat) (cond : St -> M bool) (body : St -> M St)
    (st : St) : M St :=
  c <- cond st ;;
  if c then
    match fuel with
    | O => timeout
    | S fuel' => st' <- body st ;; while fuel' cond body st'
    end
  else ret st.

(** [for (int i = ...; ...; ++i) body], over the values [i] takes. *)
Fixpoint for_ {St} (range : list Z) (body : Z -> St -> M St) (st : St)
    : M St :=
  match range with
  | [] => ret st
  | i :: range' => st' <- body i st ;; for_ range' body st'
  end.

(** ** std::vector<State> *)

Definition push_back {A} (v : list A) (a : A) : list A := v ++ [a].

Definition size {A} (v : list A) : Z := Z.of_nat (length v).

(** [v[i]].  The index is kept in [Z]: where the header subtracts from a
    [size_t] below zero the C++ value wraps to an index no vector reaches,
    and here the negative index is out of range just the same. *)
Definition at_ {A} (v : list A) (i : Z) : option A :=
  if (i <? 0)%Z then None else nth_error v (Z.to_nat i).

(** [v.back()] *)
Definition back {A} (v : list A) : option A := at_ v (size v - 1).

(** ** The private member functions *)

Definition system (state : State) : M (T * T) :=
  self <- this ;;
  ret (dy state, m_ode self (x state) (y state) (dy state)).

Definition rk4Step (current : State) (h : T) : M State :=
  '(k1_dy, k1_d2y) <- system current ;;
  let k2_state := mkState (x current + h / lit 2)
                          (y current + h / lit 2 * k1_dy)
                          (dy current + h / lit 2 * k1_d2y) in
  '(k2_dy, k2_d2y) <- system k2_state ;;
  let k3_state := mkState (x current + h / lit 2)
                          (y current + h / lit 2 * k2_dy)
                          (dy current + h / lit 2 * k2_d2y) in
  '(k3_dy, k3_d2y) <- system k3_state ;;
  let k4_state := mkState (x current + h)
                          (y current + h * k3_dy)
                          (dy current + h * k3_d2y) in
  '(k4_dy, k4_d2y) <- system k4_state ;;
  ret (mkState (x current + h)
               (y current + h / lit 6 *
                  (k1_dy + lit 2 * k2_dy + lit 2 * k3_dy + k4_dy))
               (dy current + h / lit 6 *
                  (k1_d2y + lit 2 * k2_d2y + lit 2 * k3_d2y + k4_d2y))).

Definition eulerStep (current : State) (h : T) : M State :=
  '(dy_, d2y) <- system current ;;
  ret (mkState (x current + h)
               (y current + h * dy_)
               (dy current + h * d2y)).

Definition adams3Step (prev_states : list State) (h : T) : M State :=
  current <- defined (back prev_states) ;;
  prev1 <- defined (at_ prev_states (size prev_states - 2)) ;;
  prev2 <- defined (at_ prev_states (size prev_states - 3)) ;;
  '(f0_dy, f0_d2y) <- system current ;;
  '(f1_dy, f1_d2y) <- system prev1 ;;
  '(f2_dy, f2_d2y) <- system prev2 ;;
  ret (mkState (x current + h)
               (y current + h *
                  (lit 23 * f0_dy - lit 16 * f1_dy + lit 5 * f2_dy) / lit 12)
               (dy current + h *
                  (lit 23 * f0_d2y - lit 16 * f1_d2y + lit 5 * f2_d2y) / lit 12)).

(** ** The public member functions

    Each method first calls [solution.reserve(...)]; that only sets the
    capacity of the vector, changes neither its size nor its elements, and is
    left out. *)

Definition solveRK4 (fuel : nat) (h x_end : T) : M (list State) :=
  self <- this ;;
  let solution := [] in
  let current := m_initial_state self in
  let solution := push_back solution current in
  ' (_, solution) <-
    while fuel
      (fun '(current, _) => ret (x current <? x_end - h / lit 2))
      (fun '(current, solution) =>
         current <- rk4Step current h ;;
         ret (current, push_back solution current))
      (current, solution) ;;
  ret solution.

Definition solveEuler (fuel : nat) (h x_end : T) : M (list State) :=
  self <- this ;;
  let solution := [] in
  let current := m_initial_state self in
  let solution := push_back solution current in
  ' (_, solution) <-
    while fuel
      (fun '(current, _) => ret (x current <? x_end - h / lit 2))
      (fun '(current, solution) =>
         current <- eulerStep current h ;;
         ret (current, push_back solution current))
      (current, solution) ;;
  ret solution.

Definition solveAdams3 (fuel : nat) (h x_end : T) : M (list State) :=
  let solution := [] in
  solution <-
    for_ [0; 1; 2]%Z
      (fun i solution =>
         if (i =? 0)%Z then
           self <- this ;;
           ret (push_back solution (m_initial_state self))
         else
           last <- defined (back solution) ;;
           next <- rk4Step last h ;;
           ret (push_back solution next))
      solution ;;
  while fuel
    (fun solution =>
       last <- defined (back solution) ;;
       ret (x last <? x_end - h / lit 2))
    (fun solution =>
       next <- adams3Step solution h ;;
       ret (push_back solution next))
    solution.

(** ** The static error estimator

    [i] and [coarse_idx] only grow, and stay within one step of the sizes of
    the two vectors. *)

Equations? runge_loop (fine coarse : list State) (p : T) (i coarse_idx : Z)
    (errors : list T) : Outcome (list T)
    by wf (Z.to_nat (size fine - i)) lt :=
  runge_loop fine coarse p i coarse_idx errors
    with Z_lt_dec i (size fine) => {
    | right _ => Returned errors
    | left _ with Z_ge_dec coarse_idx (size coarse) => {
      | left _ => Returned errors                       (* break *)
      | right _ with at_ fine i, at_ coarse coarse_idx => {
        | Some fine_i, Some coarse_c =>
            let error := abs (y fine_i - y coarse_c) /
                         (lit 1 - pow (lit 2) (- p)) in
            runge_loop fine coarse p (i + 2)%Z (coarse_idx + 1)%Z
                       (push_back errors error)
        | _, _ => Undefined } } }.
Proof. lia. Qed.

Definition calculateRungeError (fine coarse : list State) (p : T)
    : Outcome (list T) :=
  runge_loop fine coarse p 0 0 [].

End Solver.

Notation "v <- m ;; k" := (bind m (fun v => k))
  (at level 61, m at next level, right associativity).
Notation "' pat <- m ;; k" := (bind m (fun v => match v with pat => k end))
  (at level 61, pat pattern, m at next level, right associativity).

Arguments State T : clear implicits.
Arguments ODESolver T : clear implicits.
Arguments SecondOrderODE T : clear implicits.

(** ** Two readings of the arithmetic *)

(** Rationals: exact and executable, results kept in lowest terms.  [Qpow]
    agrees with [std::pow] at the integral exponents (the orders of the
    methods); a rational power has no rational value in general. *)

Definition Qltb (a b : Q) : bool := if Qlt_le_dec a b then true else false.

Definition Qpow (b e : Q) : Q := Qred (Qpower b (Qnum e / Zpos (Qden e))).

#[export] Instance Scalar_Q : Scalar Q := {|
  lit := inject_Z;
  add := fun a b => Qred (Qplus a b);
  sub := fun a b => Qred (Qminus a b);
  mul := fun a b => Qred (Qmult a b);
  div := fun a b => Qred (Qdiv a b);
  opp := Qopp;
  abs := Qabs;
  pow := Qpow;
  ltb := Qltb
|}.

(** Reals: exact arithmetic, for the proofs. *)

Definition Rltb (a b : R) : bool := if Rlt_dec a b then true else false.

#[export] Instance Scalar_R : Scalar R := {|
  lit := IZR;
  add := Rplus;
  sub := Rminus;
  mul := Rmult;
  div := Rdiv;
  opp := Ropp;
  abs := Rabs;
  pow := Rpower;
  ltb := Rltb
|}.

(** The number of loop iterations that is always enough in exact arithmetic:
    the ceiling of (x_end - h/2 - x0) / h, read as a natural number. *)
Definition steps_bound (x0 h x_end : R) : nat :=
  Z.to_nat (Zceil ((x_end - h / 2 - x0) / h)).

(** An equation whose right-hand side is a polynomial in x alone,
    a + b x + c x^2, and its solution through (x0, y0) with slope dy0. *)
Definition forcing (a b c : R) : SecondOrderODE R :=
  fun x _ _ => (a + b * x + c * x * x)%R.

Definition quartic_dy (a b c x0 dy0 : R) (x : R) : R :=
  (dy0 + a * (x - x0) + b * (x * x - x0 * x0) / 2
   + c * (x * x * x - x0 * x0 * x0) / 3)%R.

Definition quartic_y (a b c x0 y0 dy0 : R) (x : R) : R :=
  (y0 + dy0 * (x - x0) + a * (x - x0) * (x - x0) / 2
   + b * (x * x * x / 6 - x0 * x0 * x / 2 + x0 * x0 * x0 / 3)
   + c * (x * x * x * x / 12 - x0 * x0 * x0 * x / 3
          + x0 * x0 * x0 * x0 / 4))%R.

(** A sample that lies on that solution. *)
Definition on_quartic (a b c x0 y0 dy0 : R) (s : State R) : Prop :=
  y s = quartic_y a b c x0 y0 dy0 (x s) /\
  dy s = quartic_dy a b c x0 dy0 (x s).

(** ** The driver's equation and reference solution ([main.cpp]) *)

Definition exact_solution (x : R) : R :=
  (sqrt (1 + x * x) + exp (-2 * x))%R.

(** The lambda [ode] of [main]. *)
Definition main_ode : SecondOrderODE R :=
  fun x y dy =>
    ((3 - 2 * x + 4 * x * x) * exp (-2 * x) / (1 + x * x)
     - x / (1 + x * x) * dy
     - 1 / (1 + x * x) * y)%R.

(** The first and second derivative of [exact_solution]. *)
Definition exact_solution_d1 (x : R) : R :=
  (x / sqrt (1 + x * x) - 2 * exp (-2 * x))%R.

Definition exact_solution_d2 (x : R) : R :=
  (/ (sqrt (1 + x * x) * (1 + x * x)) + 4 * exp (-2 * x))%R.

(** ** The three entry points, by name *)

Inductive Method : Type := Euler | RK4 | Adams3.

Definition solve {T} `{Scalar T} (m : Method)
    : nat -> T -> T -> M (list (State T)) :=
  match m with
  | Euler => solveEuler
  | RK4 => solveRK4
  | Adams3 => solveAdams3
  end.

(** The test equation: second derivative of y equals -y, from y = 0 with
    slope 1 at x = 0. *)
Definition harmonic {T} `{Scalar T} : ODESolver T :=
  construct (fun _ y _ => - y)%sc (lit 0) (lit 0) (lit 1).

(** ** The steps as the specification words them

    Slopes are pairs (dy/dx, d(dy)/dx); a step adds a combination of slope
    pairs, componentwise, to (y, dy). *)

Section Specification.

Context {T : Type} `{Scalar T}.
Local Open Scope scalar_scope.

Definition slopes (f : SecondOrderODE T) (s : State T) : T * T :=
  (dy s, f (x s) (y s) (dy s)).

Definition vadd (a b : T * T) : T * T := (fst a + fst b, snd a + snd b).
Definition vsub (a b : T * T) : T * T := (fst a - fst b, snd a - snd b).
Definition vscale (c : T) (a : T * T) : T * T := (c * fst a, c * snd a).
Definition vdiv (a : T * T) (c : T) : T * T := (fst a / c, snd a / c).

(** [s] shifted by [d] along the slopes [k] *)
Definition shifted (s : State T) (d : T) (k : T * T) : State T :=
  mkState (x s + d) (y s + d * fst k) (dy s + d * snd k).

(** [s] moved by [h] in x and by [incr] in (y, dy) *)
Definition advanced (s : State T) (h : T) (incr : T * T) : State T :=
  mkState (x s + h) (y s + fst incr) (dy s + snd incr).

Definition spec_eulerStep (f : SecondOrderODE T) (current : State T) (h : T)
    : State T :=
  advanced current h (vscale h (slopes f current)).

Definition spec_rk4Step (f : SecondOrderODE T) (current : State T) (h : T)
    : State T :=
  let k1 := slopes f current in
  let k2 := slopes f (shifted current (h / lit 2) k1) in
  let k3 := slopes f (shifted current (h / lit 2) k2) in
  let k4 := slopes f (shifted current h k3) in
  advanced current h
    (vscale (h / lit 6)
       (vadd (vadd (vadd k1 (vscale (lit 2) k2)) (vscale (lit 2) k3)) k4)).

Definition spec_adams3Step (f : SecondOrderODE T)
    (current prev1 prev2 : State T) (h : T) : State T :=
  let f0 := slopes f current in
  let f1 := slopes f prev1 in
  let f2 := slopes f prev2 in
  advanced current h
    (vdiv (vscale h (vadd (vsub (vscale (lit 23) f0) (vscale (lit 16) f1))
                          (vscale (lit 5) f2)))
          (lit 12)).

(** The three most recent points of a trajectory, newest first. *)
Definition last_three (trajectory : list (State T))
    : option (State T * State T * State T) :=
  match rev trajectory with
  | current :: prev1 :: prev2 :: _ => Some (current, prev1, prev2)
  | _ => None
  end.

(** The points a method has stored before its [while] loop starts. *)
Definition bootstrap (m : Method) (self : ODESolver T) (h : T)
    : list (State T) :=
  let initial := m_initial_state self in
  match m with
  | Adams3 =>
      let s1 := spec_rk4Step (m_ode self) initial h in
      [initial; s1; spec_rk4Step (m_ode self) s1 h]
  | _ => [initial]
  end.

Definition boot_points (m : Method) : nat :=
  match m with
  | Adams3 => 3
  | _ => 1
  end.

(** The estimate the specification gives for the aligned pair number [i]. *)
Definition spec_error (fine coarse : list (State T)) (p : T) (i : nat)
    : option T :=
  match nth_error fine (2 * i), nth_error coarse i with
  | Some f, Some c =>
      Some (abs (y f - y c) / (lit 1 - pow (lit 2) (- p)))
  | _, _ => None
  end.

(** ** Predicates on calls and trajectories *)

(** A call that neither changes the solver object nor throws. *)
Definition quiet {A} (m : @M T A) : Prop :=
  forall self, fst (m self) = self /\ forall e, snd (m self) <> Raised e.

(** The stopping test of the three [while] loops, on the last point. *)
Definition guard (h x_end : T) (s : State T) : bool :=
  x s <? x_end - h / lit 2.

(** Each point is linked to the point before it. *)
Definition stepwise (link : State T -> State T -> Prop)
    (v : list (State T)) : Prop :=
  forall i a b, nth_error v i = Some a -> nth_error v (S i) = Some b ->
                link a b.

(** One step [h] to the right. *)
Definition advances (h : T) (a b : State T) : Prop := x b = x a + h.

(** From index [from] on, every point that has a successor passed the
    stopping test. *)
Definition guarded (from : nat) (h x_end : T) (v : list (State T)) : Prop :=
  forall i a,
    (from <= i)%nat -> (S i < length v)%nat -> nth_error v i = Some a ->
    guard h x_end a = true.

Record Trajectory (boot : list (State T))
    (link : State T -> State T -> Prop) (h x_end : T)
    (v : list (State T)) : Prop := {
  traj_boot : firstn (length boot) v = boot;
  traj_steps : stepwise link v;
  traj_guarded : guarded (length boot - 1) h x_end v
}.

(** The loop of [solveEuler] and [solveRK4], for either step function. *)
Definition single_step_solve (step : State T -> T -> @M T (State T))
    (fuel : nat) (h x_end : T) : @M T (list (State T)) :=
  self <- this ;;
  let solution := [] in
  let current := m_initial_state self in
  let solution := push_back solution current in
  ' (_, solution) <-
    while fuel
      (fun '(current, _) => ret (x current <? x_end - h / lit 2))
      (fun '(current, solution) =>
         current <- step current h ;;
         ret (current, push_back solution current))
      (current, solution) ;;
  ret solution.

(** The number of aligned pairs *)
Definition aligned (fine coarse : list (State T)) : nat :=
  Nat.min ((length fine + 1) / 2) (length coarse).

End Specification.

(** ** The grid of x coordinates *)

Definition outcome_map {A B} (f : A -> B) (o : Outcome A) : Outcome B :=
  match o with
  | Returned a => Returned (f a)
  | Raised e => Raised e
  | Undefined => Undefined
  | Timeout => Timeout
  end.

Section Grid.

Context {T : Type} `{Scalar T}.
Local Open Scope scalar_scope.

(** The x coordinates a stepping loop visits from [xc] on: [xc], then one
    more step as long as the stopping test passes. *)
Fixpoint grid (fuel : nat) (h x_end xc : T) : Outcome (list T) :=
  if xc <? x_end - h / lit 2 then
    match fuel with
    | O => Timeout
    | S fuel' => outcome_map (cons xc) (grid fuel' h x_end (xc + h))
    end
  else Returned [xc].

(** ** The driver ([main.cpp])

    [main] prints one row for every second point of the fine RK4
    trajectory; the model keeps the numbers of each row and leaves their
    formatting out. *)

Record Row : Type := mkRow {
  row_x : T;
  row_exact : T;
  row_rk4 : T;
  row_euler : T;
  row_adams : T;
  row_error : option T     (* printed only if i/2 < runge_errors.size() *)
}.

Equations? table_loop (exact : T -> T)
    (solution_rk4_fine solution_euler solution_adams : list (State T))
    (runge_errors : list T) (i : Z) (rows : list Row)
    : Outcome (list Row)
    by wf (Z.to_nat (size solution_rk4_fine - i)) lt :=
  table_loop exact solution_rk4_fine solution_euler solution_adams
             runge_errors i rows
    with Z_lt_dec i (size solution_rk4_fine) => {
    | right _ => Returned rows
    | left _ with at_ solution_rk4_fine i, at_ solution_euler i,
                  at_ solution_adams i => {
      | Some fine_i, Some euler_i, Some adams_i
          with Z_lt_dec (i / 2) (size runge_errors) => {
          | left _ with at_ runge_errors (i / 2) => {
            | Some error =>
                table_loop exact solution_rk4_fine solution_euler
                  solution_adams runge_errors (i + 2)%Z
                  (push_back rows
                     (mkRow (x fine_i) (exact (x fine_i)) (y fine_i)
                            (y euler_i) (y adams_i) (Some error)))
            | None => Undefined }
          | right _ =>
              table_loop exact solution_rk4_fine solution_euler
                solution_adams runge_errors (i + 2)%Z
                (push_back rows
                   (mkRow (x fine_i) (exact (x fine_i)) (y fine_i)
                          (y euler_i) (y adams_i) None)) }
      | _, _, _ => Undefined } }.
Proof. all: lia. Qed.

(** A computation that does not involve the solver object. *)
Definition lift {A} (o : Outcome A) : @M T A := fun self => (self, o).

(** The body of [main] from the four solve calls on, run on the solver
    object, with the reference solution and the constants [h_fine],
    [h_coarse] and [x_end] as parameters. *)
Definition driver (fuel : nat) (exact : T -> T) (h_fine h_coarse x_end : T)
    : @M T (list Row) :=
  solution_rk4_fine <- solveRK4 fuel h_fine x_end ;;
  solution_rk4_coarse <- solveRK4 fuel h_coarse x_end ;;
  solution_euler <- solveEuler fuel h_fine x_end ;;
  solution_adams <- solveAdams3 fuel h_fine x_end ;;
  runge_errors <-
    lift (calculateRungeError solution_rk4_fine solution_rk4_coarse
                              (lit 4)) ;;
  lift (table_loop exact solution_rk4_fine solution_euler solution_adams
                   runge_errors 0 []).

(** The row the table has for the aligned index [j]. *)
Definition spec_row (exact : T -> T)
    (fine euler adams : list (State T)) (errors : list T) (j : nat)
    : option Row :=
  match nth_error fine (2 * j), nth_error euler (2 * j),
        nth_error adams (2 * j) with
  | Some f, Some e, Some a =>
      Some (mkRow (x f) (exact (x f)) (y f) (y e) (y a)
                  (nth_error errors j))
  | _, _, _ => None
  end.

(** The step function of a single-step method. *)
Definition step_of (m : Method) : State T -> T -> @M T (State T) :=
  match m with
  | Euler => eulerStep
  | _ => rk4Step
  end.

(** Every point from the fourth on is the Adams step of the three points
    before it. *)
Definition adams_linked (f : SecondOrderODE T) (h : T)
    (v : list (State T)) : Prop :=
  forall i a b c d,
    nth_error v i = Some a -> nth_error v (S i) = Some b ->
    nth_error v (S (S i)) = Some c -> nth_error v (S (S (S i))) = Some d ->
    d = spec_adams3Step f c b a h.

End Grid.

(** [main], with the constants it fixes. *)
Definition main (fuel : nat) : Outcome (list (@Row R)) :=
  let x0 := 0%R in
  let y0 := 2%R in
  let dy0 := (-2)%R in
  let solver := construct main_ode x0 y0 dy0 in
  let h_fine := (5 / 100)%R in
  let h_coarse := (1 / 10)%R in
  let x_end := 1%R in
  snd (driver fuel exact_solution h_fine h_coarse x_end solver).

(** * Properties that hold for every scalar arithmetic *)

Section Generic.

Context {T : Type} `{Scalar T}.
Local Open Scope scalar_scope.

(** ** Vector access *)

Lemma size_push_back {A} (v : list A) (a : A) :
  size (push_back v a) = (size v + 1)%Z.
Proof. unfold size, push_back. rewrite length_app. simpl. lia. Qed.

Lemma at_nat {A} (v : list A) (n : nat) : at_ v (Z.of_nat n) = nth_error v n.
Proof.
  unfold at_. destruct (Z.ltb_spec (Z.of_nat n) 0); [lia|].
  now rewrite Nat2Z.id.
Qed.

Lemma at_from_end {A} (v : list A) (k : nat) :
  (k < length v)%nat ->
  at_ v (size v - Z.of_nat (S k)) = nth_error (rev v) k.
Proof.
  intros Hk. unfold size.
  replace (Z.of_nat (length v) - Z.of_nat (S k))%Z
    with (Z.of_nat (length v - S k)) by lia.
  rewrite at_nat, nth_error_rev.
  now destruct (Nat.ltb_spec k (length v)); [|lia].
Qed.

Lemma back_push_back {A} (v : list A) (a : A) : back (push_back v a) = Some a.
Proof.
  unfold back. rewrite size_push_back.
  replace (size v + 1 - 1)%Z with (Z.of_nat (length v)) by (unfold size; lia).
  rewrite at_nat. unfold push_back.
  rewrite nth_error_app2 by lia. now rewrite Nat.sub_diag.
Qed.

Lemma back_nth {A} (v : list A) (a : A) :
  back v = Some a ->
  (0 < length v)%nat /\ nth_error v (length v - 1) = Some a.
Proof.
  unfold back, size. intros Hb.
  destruct v as [|b v]; [discriminate|].
  split; [simpl; lia|].
  replace (Z.of_nat (length (b :: v)) - 1)%Z
    with (Z.of_nat (length (b :: v) - 1)) in Hb
    by (change (length (b :: v)) with (S (length v)); lia).
  now rewrite at_nat in Hb.
Qed.

Lemma back_some {A} (v : list A) :
  (0 < length v)%nat -> exists a, back v = Some a.
Proof.
  intros Hlen. unfold back.
  change (size v - 1)%Z with (size v - Z.of_nat 1)%Z.
  rewrite at_from_end by exact Hlen.
  rewrite <- length_rev in Hlen.
  destruct (rev v) as [|a r]; [simpl in Hlen; lia|].
  now exists a.
Qed.

(** ** The steps return what the specification says, and leave the solver
    object as it was *)

Lemma system_run (self : ODESolver T) (state : State T) :
  system state self = (self, Returned (slopes (m_ode self) state)).
Proof. reflexivity. Qed.

Lemma eulerStep_run (self : ODESolver T) (current : State T) (h : T) :
  eulerStep current h self
  = (self, Returned (spec_eulerStep (m_ode self) current h)).
Proof. reflexivity. Qed.

Lemma rk4Step_run (self : ODESolver T) (current : State T) (h : T) :
  rk4Step current h self
  = (self, Returned (spec_rk4Step (m_ode self) current h)).
Proof. reflexivity. Qed.

Lemma adams3Step_run (self : ODESolver T) (older : list (State T))
    (prev2 prev1 current : State T) (h : T) :
  adams3Step (older ++ [prev2; prev1; current]) h self
  = (self, Returned (spec_adams3Step (m_ode self) current prev1 prev2 h)).
Proof.
  set (v := older ++ [prev2; prev1; current]).
  assert (Hlen : (3 <= length v)%nat)
    by (unfold v; rewrite length_app; simpl; lia).
  assert (Hrev : rev v = current :: prev1 :: prev2 :: rev older)
    by (unfold v; rewrite rev_app_distr; reflexivity).
  unfold adams3Step, back.
  change (size v - 1)%Z with (size v - Z.of_nat 1)%Z.
  change (size v - 2)%Z with (size v - Z.of_nat 2)%Z.
  change (size v - 3)%Z with (size v - Z.of_nat 3)%Z.
  rewrite (at_from_end v (k := 0)), (at_from_end v (k := 1)),
          (at_from_end v (k := 2)) by lia.
  rewrite Hrev. reflexivity.
Qed.

Lemma last_three_some (trajectory : list (State T)) :
  (3 <= length trajectory)%nat ->
  exists older prev2 prev1 current,
    trajectory = older ++ [prev2; prev1; current] /\
    last_three trajectory = Some (current, prev1, prev2).
Proof.
  intros Hlen. unfold last_three.
  assert (Hrev : trajectory = rev (rev trajectory))
    by now rewrite rev_involutive.
  rewrite <- length_rev in Hlen.
  destruct (rev trajectory) as [|c [|p1 [|p2 r]]]; simpl in Hlen; try lia.
  exists (rev r), p2, p1, c. split; [|reflexivity].
  rewrite Hrev. simpl. rewrite <- !app_assoc. reflexivity.
Qed.

(** ** Loops *)

(** Partial correctness: a loop that keeps [Inv] either is still running when
    the fuel is gone, or returns in a state where [Inv] holds and the guard
    fails; in both cases the solver object is as before. *)
Lemma while_partial {St} (Inv : St -> Prop) (guard : St -> bool)
    (self : ODESolver T) (cond : St -> @M T bool) (body : St -> @M T St) :
  (forall st, Inv st -> cond st self = (self, Returned (guard st))) ->
  (forall st, Inv st -> guard st = true ->
     exists st', body st self = (self, Returned st') /\ Inv st') ->
  forall fuel st, Inv st ->
    while fuel cond body st self = (self, Timeout) \/
    exists r, while fuel cond body st self = (self, Returned r) /\
              Inv r /\ guard r = false.
Proof.
  intros Hcond Hbody.
  induction fuel as [|fuel IH]; intros st Hst; simpl; unfold bind;
    rewrite (Hcond _ Hst); destruct (guard st) eqn:Hg.
  - now left.
  - right. now exists st.
  - destruct (Hbody _ Hst Hg) as (st' & Hb & Hst'). rewrite Hb. now apply IH.
  - right. now exists st.
Qed.

(** Total correctness: [V n st] says that [st] is at most [n] runs of the
    body away from the exit; then fuel [n] is enough. *)
Lemma while_total {St} (V : nat -> St -> Prop) (guard : St -> bool)
    (self : ODESolver T) (cond : St -> @M T bool) (body : St -> @M T St) :
  (forall n st, V n st -> cond st self = (self, Returned (guard st))) ->
  (forall n st, V n st -> guard st = true ->
     exists n' st', n = S n' /\ body st self = (self, Returned st') /\
                    V n' st') ->
  forall n fuel st, V n st -> (n <= fuel)%nat ->
    exists r k, while fuel cond body st self = (self, Returned r) /\
                V k r /\ guard r = false.
Proof.
  intros Hcond Hbody.
  induction n as [|n IH]; intros fuel st Hst Hfuel.
  - destruct (guard st) eqn:Hg.
    + destruct (Hbody _ _ Hst Hg) as (n' & _ & Hn & _). discriminate.
    + exists st, 0%nat. split; [|now split].
      destruct fuel; simpl; unfold bind; rewrite (Hcond _ _ Hst), Hg;
        reflexivity.
  - destruct (guard st) eqn:Hg.
    + destruct (Hbody _ _ Hst Hg) as (n' & st' & Hn & Hb & Hst').
      injection Hn as <-.
      destruct fuel as [|fuel]; [lia|].
      destruct (IH fuel st' Hst' ltac:(lia)) as (r & k & Hr & Hk & Hgr).
      exists r, k. split; [|now split].
      simpl; unfold bind. now rewrite (Hcond _ _ Hst), Hg, Hb.
    + exists st, (S n). split; [|now split].
      destruct fuel; simpl; unfold bind; rewrite (Hcond _ _ Hst), Hg;
        reflexivity.
Qed.

(** A loop whose guard holds as long as [Inv] does never exits. *)
Lemma while_diverges {St} (Inv : St -> Prop) (self : ODESolver T)
    (cond : St -> @M T bool) (body : St -> @M T St) :
  (forall st, Inv st -> cond st self = (self, Returned true)) ->
  (forall st, Inv st ->
     exists st', body st self = (self, Returned st') /\ Inv st') ->
  forall fuel st, Inv st -> while fuel cond body st self = (self, Timeout).
Proof.
  intros Hcond Hbody.
  induction fuel as [|fuel IH]; intros st Hst; simpl; unfold bind;
    rewrite (Hcond _ Hst); [reflexivity|].
  destruct (Hbody _ Hst) as (st' & Hb & Hst'). rewrite Hb. now apply IH.
Qed.

(** What a loop returns does not depend on the fuel it was given. *)
Lemma while_fuel_irrelevant {St} (self : ODESolver T)
    (cond : St -> @M T bool) (body : St -> @M T St) :
  forall fuel1 fuel2 st self1 self2 r1 r2,
    while fuel1 cond body st self = (self1, Returned r1) ->
    while fuel2 cond body st self = (self2, Returned r2) ->
    self1 = self2 /\ r1 = r2.
Proof.
  intros fuel1 fuel2 st. revert fuel2 st self.
  induction fuel1 as [|fuel1 IH]; intros fuel2 st self self1 self2 r1 r2;
    destruct fuel2 as [|fuel2]; simpl; unfold bind;
    destruct (cond st self) as [s' [[|]| | |]]; try discriminate;
    try (intros [= <- <-] [= <- <-]; now split).
  destruct (body st s') as [s'' [st'| | |]]; try discriminate.
  apply IH.
Qed.

Lemma bind_returned {A B} (m : @M T A) (k : A -> @M T B)
    (self self' : ODESolver T) (b : B) :
  bind m k self = (self', Returned b) ->
  exists self1 a, m self = (self1, Returned a) /\
                  k a self1 = (self', Returned b).
Proof.
  unfold bind. destruct (m self) as [self1 [a| | |]]; try discriminate.
  intros Hk. now exists self1, a.
Qed.

Lemma solve_fuel_irrelevant (m : Method) (fuel1 fuel2 : nat) (h x_end : T)
    (self self1 self2 : ODESolver T) (t1 t2 : list (State T)) :
  solve m fuel1 h x_end self = (self1, Returned t1) ->
  solve m fuel2 h x_end self = (self2, Returned t2) ->
  t1 = t2.
Proof.
  destruct m; simpl solve; unfold solveEuler, solveRK4, solveAdams3;
    intros H1 H2;
    apply bind_returned in H1; destruct H1 as (s1 & a1 & Ha1 & H1);
    apply bind_returned in H2; destruct H2 as (s2 & a2 & Ha2 & H2).
  - injection Ha1 as <- <-. injection Ha2 as <- <-.
    apply bind_returned in H1; destruct H1 as (s1 & [c1 v1] & Hw1 & H1).
    apply bind_returned in H2; destruct H2 as (s2 & [c2 v2] & Hw2 & H2).
    injection H1 as _ <-. injection H2 as _ <-.
    destruct (while_fuel_irrelevant _ _ _ _ _ _ Hw1 Hw2) as [_ Hv].
    congruence.
  - injection Ha1 as <- <-. injection Ha2 as <- <-.
    apply bind_returned in H1; destruct H1 as (s1 & [c1 v1] & Hw1 & H1).
    apply bind_returned in H2; destruct H2 as (s2 & [c2 v2] & Hw2 & H2).
    injection H1 as _ <-. injection H2 as _ <-.
    destruct (while_fuel_irrelevant _ _ _ _ _ _ Hw1 Hw2) as [_ Hv].
    congruence.
  - rewrite Ha1 in Ha2. injection Ha2 as <- <-.
    now destruct (while_fuel_irrelevant _ _ _ _ _ _ H1 H2).
Qed.

(** ** No member function changes the solver object or throws *)

Lemma quiet_ret {A} (a : A) : quiet (@ret T A a).
Proof. intros self. split; [reflexivity | discriminate]. Qed.

Lemma quiet_this : quiet (@this T).
Proof. intros self. split; [reflexivity | discriminate]. Qed.

Lemma quiet_undefined {A} : quiet (@undefined T A).
Proof. intros self. split; [reflexivity | discriminate]. Qed.

Lemma quiet_timeout {A} : quiet (@timeout T A).
Proof. intros self. split; [reflexivity | discriminate]. Qed.

Lemma quiet_defined {A} (o : option A) : quiet (@defined T A o).
Proof. destruct o; [apply quiet_ret | apply quiet_undefined]. Qed.

Lemma quiet_bind {A B} (m : @M T A) (k : A -> @M T B) :
  quiet m -> (forall a, quiet (k a)) -> quiet (bind m k).
Proof.
  intros Hm Hk self. unfold bind.
  destruct (Hm self) as [Hs Hr].
  destruct (m self) as [self' o]; simpl in Hs, Hr; subst self'.
  destruct o as [a|e| |]; try (split; [reflexivity | discriminate]).
  - apply Hk.
  - now destruct (Hr e).
Qed.

Lemma quiet_while {St} (cond : St -> @M T bool) (body : St -> @M T St) :
  (forall st, quiet (cond st)) -> (forall st, quiet (body st)) ->
  forall fuel st, quiet (while fuel cond body st).
Proof.
  intros Hc Hb. induction fuel as [|fuel IH]; intros st; simpl;
    (apply quiet_bind; [apply Hc|]); intros [|]; try apply quiet_ret.
  - apply quiet_timeout.
  - apply quiet_bind; [apply Hb | apply IH].
Qed.

Lemma quiet_for {St} (body : Z -> St -> @M T St) :
  (forall i st, quiet (body i st)) ->
  forall range st, quiet (for_ range body st).
Proof.
  intros Hb. induction range as [|i range IH]; intros st; simpl.
  - apply quiet_ret.
  - apply quiet_bind; [apply Hb | apply IH].
Qed.

Ltac quiet_steps :=
  repeat first
    [ apply quiet_ret | apply quiet_this | apply quiet_defined
    | apply quiet_bind; [|intros ?]
    | match goal with |- quiet (match ?p with (_, _) => _ end) =>
        destruct p end ].

Lemma quiet_system (state : State T) : quiet (system state).
Proof. unfold system. quiet_steps. Qed.

Lemma quiet_eulerStep (current : State T) (h : T) :
  quiet (eulerStep current h).
Proof. unfold eulerStep. quiet_steps. Qed.

Lemma quiet_rk4Step (current : State T) (h : T) : quiet (rk4Step current h).
Proof. unfold rk4Step. quiet_steps. Qed.

Lemma quiet_adams3Step (prev_states : list (State T)) (h : T) :
  quiet (adams3Step prev_states h).
Proof. unfold adams3Step. quiet_steps. Qed.

Lemma quiet_solve (m : Method) (fuel : nat) (h x_end : T) :
  quiet (solve m fuel h x_end).
Proof.
  destruct m; simpl; unfold solveEuler, solveRK4, solveAdams3.
  - apply quiet_bind; [apply quiet_this | intros self].
    apply quiet_bind; [| intros []; apply quiet_ret].
    apply quiet_while; intros []; [apply quiet_ret|].
    apply quiet_bind; [apply quiet_eulerStep | intros; apply quiet_ret].
  - apply quiet_bind; [apply quiet_this | intros self].
    apply quiet_bind; [| intros []; apply quiet_ret].
    apply quiet_while; intros []; [apply quiet_ret|].
    apply quiet_bind; [apply quiet_rk4Step | intros; apply quiet_ret].
  - apply quiet_bind.
    + apply quiet_for. intros i st. destruct (i =? 0)%Z.
      * apply quiet_bind; [apply quiet_this | intros; apply quiet_ret].
      * apply quiet_bind; [apply quiet_defined | intros].
        apply quiet_bind; [apply quiet_rk4Step | intros; apply quiet_ret].
    + intros solution. apply quiet_while; intros st.
      * apply quiet_bind; [apply quiet_defined | intros; apply quiet_ret].
      * apply quiet_bind; [apply quiet_adams3Step | intros; apply quiet_ret].
Qed.

(** ** Trajectories *)

Lemma Trajectory_boot (boot : list (State T)) link (h x_end : T) :
  stepwise link boot -> Trajectory boot link h x_end boot.
Proof.
  intros Hs. split; [apply firstn_all | exact Hs |].
  intros i a Hi Hlen _. lia.
Qed.

Lemma Trajectory_length (boot v : list (State T)) link (h x_end : T) :
  Trajectory boot link h x_end v -> (length boot <= length v)%nat.
Proof.
  intros [Hb _ _]. apply (f_equal (@length _)) in Hb.
  rewrite length_firstn in Hb. lia.
Qed.

Lemma Trajectory_weaken (boot v : list (State T))
    (link link' : State T -> State T -> Prop) (h x_end : T) :
  (forall a b, link a b -> link' a b) ->
  Trajectory boot link h x_end v -> Trajectory boot link' h x_end v.
Proof.
  intros Hl [Hb Hs Hg]. split; [exact Hb | | exact Hg].
  intros i a b Ha Hb'. apply Hl. now apply (Hs i).
Qed.

Lemma Trajectory_push (boot v : list (State T)) link (h x_end : T)
    (c b : State T) :
  Trajectory boot link h x_end v ->
  back v = Some c -> guard h x_end c = true -> link c b ->
  Trajectory boot link h x_end (push_back v b).
Proof.
  intros Hv Hc Hg Hx.
  pose proof (Trajectory_length Hv) as Hlen.
  destruct Hv as [Hb Hs Hgd].
  destruct (back_nth _ Hc) as [Hpos Hlast].
  unfold push_back. split.
  - rewrite firstn_app, Hb.
    replace (length boot - length v)%nat with 0%nat by lia.
    apply app_nil_r.
  - intros i a b' Ha Hb'.
    destruct (Nat.lt_trichotomy (S i) (length v)) as [Hlt|[Heq|Hgt]].
    + rewrite nth_error_app1 in Ha, Hb' by lia. eauto.
    + rewrite nth_error_app1 in Ha by lia.
      rewrite nth_error_app2 in Hb' by lia.
      replace (S i - length v)%nat with 0%nat in Hb' by lia.
      replace i with (length v - 1)%nat in Ha by lia.
      simpl in Hb'. congruence.
    + rewrite nth_error_app2 in Hb' by lia.
      destruct (S i - length v)%nat as [|[|k]] eqn:Hk; [lia| |]; discriminate.
  - intros i a Hi Hlt Ha. rewrite length_app in Hlt. simpl in Hlt.
    rewrite nth_error_app1 in Ha by lia.
    destruct (Nat.eq_dec (S i) (length v)) as [Heq|Hne].
    + replace i with (length v - 1)%nat in Ha by lia. congruence.
    + apply (Hgd i); [lia | lia | exact Ha].
Qed.

Lemma Trajectory_head (boot v : list (State T)) link (h x_end : T)
    (first : State T) :
  Trajectory boot link h x_end v -> hd_error boot = Some first ->
  hd_error v = Some first.
Proof.
  intros [Hb _ _] Hf. destruct boot as [|b0 boot]; [discriminate|].
  injection Hf as ->. destruct v as [|a v]; [discriminate|].
  simpl in Hb. now injection Hb as -> _.
Qed.

Lemma stepwise_prefix3 (next : State T -> State T) (v : list (State T))
    (first : State T) :
  stepwise (fun a b => b = next a) v -> hd_error v = Some first ->
  (3 <= length v)%nat ->
  firstn 3 v = [first; next first; next (next first)].
Proof.
  intros Hs Hf Hlen.
  destruct v as [|a [|b [|c v]]]; simpl in Hlen; try lia.
  injection Hf as ->.
  rewrite (Hs 0%nat first b eq_refl eq_refl).
  rewrite (Hs 1%nat b c eq_refl eq_refl).
  now rewrite (Hs 0%nat first b eq_refl eq_refl).
Qed.

(** ** The solvers, up to termination *)

Lemma single_step_partial (step : State T -> T -> @M T (State T))
    (next : State T -> State T) (fuel : nat) (h x_end : T)
    (self : ODESolver T) :
  (forall c, step c h self = (self, Returned (next c))) ->
  single_step_solve step fuel h x_end self = (self, Timeout) \/
  exists traj last,
    single_step_solve step fuel h x_end self = (self, Returned traj) /\
    Trajectory [m_initial_state self] (fun a b => b = next a) h x_end traj /\
    back traj = Some last /\ guard h x_end last = false.
Proof.
  intros Hstep.
  unfold single_step_solve.
  set (cond := fun '(current, _) => ret (x current <? x_end - h / lit 2)).
  set (body := fun '(current, solution) => _).
  unfold bind, this, push_back; simpl.
  destruct (@while_partial _
              (fun st : State T * list (State T) =>
                 back (snd st) = Some (fst st) /\
                 Trajectory [m_initial_state self] (fun a b => b = next a)
                            h x_end (snd st))
              (fun st => guard h x_end (fst st)) self cond body)
    with (fuel := fuel) (st := (m_initial_state self, [m_initial_state self]))
    as [Hto | ([c v] & Hr & [Hback Htraj] & Hg)].
  - intros [c v] _. reflexivity.
  - intros [c v] [Hback Htraj] Hg. simpl in *.
    exists (next c, push_back v (next c)). split.
    + unfold body, bind. now rewrite Hstep.
    + split; [apply back_push_back|].
      now apply Trajectory_push with (c := c).
  - split; [reflexivity|]. apply Trajectory_boot.
    intros [|i] a b Ha Hb; [discriminate|]. now destruct i.
  - left. now rewrite Hto.
  - right. exists v, c. rewrite Hr. auto.
Qed.

Lemma solveEuler_partial (fuel : nat) (h x_end : T) (self : ODESolver T) :
  solveEuler fuel h x_end self = (self, Timeout) \/
  exists traj last,
    solveEuler fuel h x_end self = (self, Returned traj) /\
    Trajectory [m_initial_state self]
               (fun a b => b = spec_eulerStep (m_ode self) a h)
               h x_end traj /\
    back traj = Some last /\ guard h x_end last = false.
Proof.
  apply (single_step_partial eulerStep
           (fun c => spec_eulerStep (m_ode self) c h)).
  intros c. apply eulerStep_run.
Qed.

Lemma solveRK4_partial (fuel : nat) (h x_end : T) (self : ODESolver T) :
  solveRK4 fuel h x_end self = (self, Timeout) \/
  exists traj last,
    solveRK4 fuel h x_end self = (self, Returned traj) /\
    Trajectory [m_initial_state self]
               (fun a b => b = spec_rk4Step (m_ode self) a h)
               h x_end traj /\
    back traj = Some last /\ guard h x_end last = false.
Proof.
  apply (single_step_partial rk4Step
           (fun c => spec_rk4Step (m_ode self) c h)).
  intros c. apply rk4Step_run.
Qed.

Lemma bootstrap_length (m : Method) (self : ODESolver T) (h : T) :
  length (bootstrap m self h) = boot_points m.
Proof. now destruct m. Qed.

Lemma solveAdams3_partial (fuel : nat) (h x_end : T) (self : ODESolver T) :
  solveAdams3 fuel h x_end self = (self, Timeout) \/
  exists traj last,
    solveAdams3 fuel h x_end self = (self, Returned traj) /\
    Trajectory (bootstrap Adams3 self h) (advances h) h x_end traj /\
    back traj = Some last /\ guard h x_end last = false.
Proof.
  unfold solveAdams3.
  match goal with |- context [while fuel ?c ?b] =>
    set (cond := c); set (body := b) end.
  match goal with |- context [for_ ?r ?b ?v] =>
    assert (Hboot : for_ r b v self
                    = (self, Returned (bootstrap Adams3 self h)))
      by reflexivity;
    set (boot := for_ r b v) in *
  end.
  unfold bind. rewrite Hboot.
  set (guard_back := fun v : list (State T) =>
         match back v with
         | Some last => guard h x_end last
         | None => false
         end).
  destruct (@while_partial _
              (Trajectory (bootstrap Adams3 self h) (advances h) h x_end)
              guard_back self cond body)
    with (fuel := fuel) (st := bootstrap Adams3 self h)
    as [Hto | (v & Hr & Htraj & Hg)].
  - intros v Hv. apply Trajectory_length in Hv.
    rewrite bootstrap_length in Hv. simpl in Hv.
    destruct (back_some v) as [last Hlast]; [lia|].
    unfold cond, guard_back, bind. rewrite Hlast. reflexivity.
  - intros v Hv Hg. pose proof (Trajectory_length Hv) as Hlen.
    rewrite bootstrap_length in Hlen. simpl in Hlen.
    destruct (last_three_some v Hlen) as (older & p2 & p1 & c & Hv3 & _).
    assert (Hc : back v = Some c).
    { rewrite Hv3.
      change (older ++ [p2; p1; c]) with (older ++ [p2; p1] ++ [c]).
      rewrite app_assoc. apply back_push_back. }
    exists (push_back v (spec_adams3Step (m_ode self) c p1 p2 h)). split.
    + unfold body, bind. rewrite Hv3 at 1. now rewrite adams3Step_run.
    + apply Trajectory_push with (c := c); [exact Hv | exact Hc | | reflexivity].
      unfold guard_back in Hg. now rewrite Hc in Hg.
  - apply Trajectory_boot. intros [|[|[|i]]] a b Ha Hb; simpl in Ha, Hb;
      try discriminate; injection Ha as <-; injection Hb as <-; reflexivity.
  - left. exact Hto.
  - right. pose proof (Trajectory_length Htraj) as Hlen.
    rewrite bootstrap_length in Hlen. simpl in Hlen.
    destruct (back_some v) as [last Hlast]; [lia|].
    exists v, last. split; [exact Hr|]. split; [exact Htraj|].
    split; [exact Hlast|].
    unfold guard_back in Hg. now rewrite Hlast in Hg.
Qed.

(** Every method: the object is untouched, and a call that returns returns a
    trajectory that starts with the method's bootstrap points, advances by
    [h], took a step wherever the stopping test allowed, and ends where the
    test fails. *)
Lemma solve_partial (m : Method) (fuel : nat) (h x_end : T)
    (self : ODESolver T) :
  solve m fuel h x_end self = (self, Timeout) \/
  exists traj last,
    solve m fuel h x_end self = (self, Returned traj) /\
    Trajectory (bootstrap m self h) (advances h) h x_end traj /\
    back traj = Some last /\ guard h x_end last = false.
Proof.
  destruct m; simpl solve.
  - destruct (solveEuler_partial fuel h x_end self)
      as [Hto | (traj & last & Hr & Ht & Hl)]; [now left | right].
    exists traj, last. split; [exact Hr | split; [|exact Hl]].
    revert Ht. apply Trajectory_weaken. now intros a b ->.
  - destruct (solveRK4_partial fuel h x_end self)
      as [Hto | (traj & last & Hr & Ht & Hl)]; [now left | right].
    exists traj, last. split; [exact Hr | split; [|exact Hl]].
    revert Ht. apply Trajectory_weaken. now intros a b ->.
  - apply solveAdams3_partial.
Qed.


(** ** The error estimator *)

Lemma runge_loop_step (fine coarse : list (State T)) (p : T)
    (i coarse_idx : Z) (errors : list T) :
  runge_loop fine coarse p i coarse_idx errors =
  if Z_lt_dec i (size fine) then
    if Z_ge_dec coarse_idx (size coarse) then Returned errors
    else
      match at_ fine i, at_ coarse coarse_idx with
      | Some fine_i, Some coarse_c =>
          runge_loop fine coarse p (i + 2) (coarse_idx + 1)
            (push_back errors
               (abs (y fine_i - y coarse_c) / (lit 1 - pow (lit 2) (- p))))
      | _, _ => Undefined
      end
  else Returned errors.
Proof.
  rewrite runge_loop_unfold_eq. unfold runge_loop_unfold.
  destruct (Z_lt_dec i (size fine)); simpl; [|reflexivity].
  destruct (Z_ge_dec coarse_idx (size coarse)); simpl; [reflexivity|].
  destruct (at_ fine i); simpl; [|reflexivity].
  destruct (at_ coarse coarse_idx); reflexivity.
Qed.

Lemma runge_loop_from (fine coarse : list (State T)) (p : T) :
  forall d k errors,
    (aligned fine coarse - k = d)%nat -> (k <= aligned fine coarse)%nat ->
    exists rest,
      runge_loop fine coarse p (Z.of_nat (2 * k)) (Z.of_nat k) errors
      = Returned (errors ++ rest) /\
      length rest = d /\
      forall j, nth_error rest j =
                if (j <? d)%nat then spec_error fine coarse p (k + j)
                else None.
Proof.
  unfold aligned.
  induction d as [|d IH]; intros k errors Hd Hk; rewrite runge_loop_step.
  - exists []. rewrite app_nil_r. split; [|split; [reflexivity|]].
    + destruct (Z_lt_dec _ _) as [Hf|]; [|reflexivity].
      destruct (Z_ge_dec _ _) as [|Hc]; [reflexivity|].
      unfold size in Hf, Hc. exfalso.
      destruct (Nat.min_spec ((length fine + 1) / 2) (length coarse))
        as [[_ Hm]|[_ Hm]]; rewrite Hm in *.
      * assert (length fine <= 2 * ((length fine + 1) / 2))%nat
          by (pose proof (Nat.div_mod_eq (length fine + 1) 2);
              pose proof (Nat.mod_upper_bound (length fine + 1) 2); lia).
        lia.
      * lia.
    + intros j. now destruct j.
  - assert (Hf : (2 * k < length fine)%nat).
    { assert (S k <= (length fine + 1) / 2)%nat by lia.
      pose proof (Nat.div_mod_eq (length fine + 1) 2). lia. }
    assert (Hc : (k < length coarse)%nat) by lia.
    destruct (Z_lt_dec _ _) as [_|Hn]; [|unfold size in Hn; lia].
    destruct (Z_ge_dec _ _) as [Hn|_]; [unfold size in Hn; lia|].
    rewrite !at_nat.
    destruct (nth_error fine (2 * k)) as [f|] eqn:Ef;
      [|apply nth_error_None in Ef; lia].
    destruct (nth_error coarse k) as [c|] eqn:Ec;
      [|apply nth_error_None in Ec; lia].
    set (e := abs (y f - y c) / (lit 1 - pow (lit 2) (- p))).
    replace (Z.of_nat (2 * k) + 2)%Z with (Z.of_nat (2 * S k)) by lia.
    replace (Z.of_nat k + 1)%Z with (Z.of_nat (S k)) by lia.
    destruct (IH (S k) (push_back errors e)) as (rest & Hr & Hlen & Hnth);
      [lia | lia |].
    exists (e :: rest). split; [|split].
    + rewrite Hr. unfold push_back. now rewrite <- app_assoc.
    + simpl. now rewrite Hlen.
    + intros [|j].
      * simpl. unfold spec_error. rewrite Nat.add_0_r, Ef, Ec. reflexivity.
      * simpl nth_error. rewrite Hnth.
        replace (k + S j)%nat with (S k + j)%nat by lia.
        reflexivity.
Qed.

End Generic.

(** * The steps, the solvers and the estimator, for every scalar arithmetic *)

Section Steps.

Context {T : Type} `{Scalar T}.
Local Open Scope scalar_scope.

(** C7: [eulerStep(current, h)] returns the state with x = current.x + h,
    y = current.y + h * dy and dy = current.dy + h * d2y, where
    (dy, d2y) = system(current) = (current.dy, f(current.x, current.y,
    current.dy)); the solver object is handed back unchanged. *)
Theorem eulerStep_spec (self : ODESolver T)
    (current : State T) (h : T) :
  let dy_ := dy current in
  let d2y := m_ode self (x current) (y current) (dy current) in
  system current self = (self, Returned (dy_, d2y)) /\
  eulerStep current h self
  = (self, Returned (mkState (x current + h)
                             (y current + h * dy_)
                             (dy current + h * d2y)))%sc.
Proof. split; reflexivity. Qed.

(** C3: [rk4Step(current, h)] returns the state with x = current.x + h and
    (y, dy) = (current.y, current.dy) + (h/6)(k1 + 2 k2 + 2 k3 + k4), taken
    componentwise, where k1 = system(current), k2 and k3 are the slopes at
    current shifted by h/2 along k1 and k2, k4 the slopes at current shifted
    by h along k3, and system(s) = (s.dy, f(s.x, s.y, s.dy)). *)
Theorem rk4Step_spec (self : ODESolver T)
    (current : State T) (h : T) :
  let sys := fun s => (dy s, m_ode self (x s) (y s) (dy s)) in
  let k1 := sys current in
  let k2 := sys (shifted current (h / lit 2) k1) in
  let k3 := sys (shifted current (h / lit 2) k2) in
  let k4 := sys (shifted current h k3) in
  let incr :=
    vscale (h / lit 6)
      (vadd (vadd (vadd k1 (vscale (lit 2) k2)) (vscale (lit 2) k3)) k4) in
  (forall s, system s self = (self, Returned (sys s))) /\
  rk4Step current h self
  = (self, Returned (mkState (x current + h)
                             (y current + fst incr)
                             (dy current + snd incr)))%sc.
Proof. split; reflexivity. Qed.

(** C4: on a trajectory of at least 3 points, [adams3Step(trajectory, h)]
    returns the state with x = current.x + h,
    y = current.y + h (23 f0 - 16 f1 + 5 f2) / 12 on the dy slopes and
    dy = current.dy + h (23 f0 - 16 f1 + 5 f2) / 12 on the d2y slopes, where
    f0, f1, f2 are the system wrapper's values at the last three points,
    newest first (current, prev1, prev2). *)
Theorem adams3Step_spec (self : ODESolver T)
    (trajectory : list (State T)) (h : T) :
  (3 <= length trajectory)%nat ->
  exists current prev1 prev2,
    last_three trajectory = Some (current, prev1, prev2) /\
    let f0 := slopes (m_ode self) current in
    let f1 := slopes (m_ode self) prev1 in
    let f2 := slopes (m_ode self) prev2 in
    adams3Step trajectory h self
    = (self,
       Returned
         (mkState
            (x current + h)
            (y current +
               h * (lit 23 * fst f0 - lit 16 * fst f1 + lit 5 * fst f2)
               / lit 12)
            (dy current +
               h * (lit 23 * snd f0 - lit 16 * snd f1 + lit 5 * snd f2)
               / lit 12)))%sc.
Proof.
  intros Hlen.
  destruct (last_three_some trajectory Hlen)
    as (older & prev2 & prev1 & current & Hv & Hl).
  exists current, prev1, prev2. split; [exact Hl|].
  cbv zeta. rewrite Hv. apply adams3Step_run.
Qed.

(** With fewer than 3 points one of the three accesses is out of range. *)
Lemma adams3Step_short (self : ODESolver T) (trajectory : list (State T))
    (h : T) :
  (length trajectory < 3)%nat ->
  adams3Step trajectory h self = (self, Undefined).
Proof.
  intros Hlen.
  destruct trajectory as [|a [|b [|c r]]]; simpl in Hlen; try lia;
    reflexivity.
Qed.

End Steps.

Lemma adams3Step_spec_witness :
  exists current prev1 prev2 : State Q,
    last_three [mkState 0 0 1; mkState (1#2) (1#2) 1; mkState 1 1 (3#4)]%Q
    = Some (current, prev1, prev2) /\
    adams3Step [mkState 0 0 1; mkState (1#2) (1#2) 1; mkState 1 1 (3#4)]%Q
               (1#2)%Q harmonic
    = (harmonic,
       Returned
         (mkState
            (x current + (1#2)%Q)
            (y current +
               (1#2)%Q * (lit 23 * fst (slopes (m_ode harmonic) current)
                          - lit 16 * fst (slopes (m_ode harmonic) prev1)
                          + lit 5 * fst (slopes (m_ode harmonic) prev2))
               / lit 12)
            (dy current +
               (1#2)%Q * (lit 23 * snd (slopes (m_ode harmonic) current)
                          - lit 16 * snd (slopes (m_ode harmonic) prev1)
                          + lit 5 * snd (slopes (m_ode harmonic) prev2))
               / lit 12)))%sc.
Proof.
  apply (adams3Step_spec (T := Q) harmonic
           [mkState 0 0 1; mkState (1#2) (1#2) 1; mkState 1 1 (3#4)]%Q
           (1#2)%Q).
  simpl. lia.
Defined.

Section Solvers.

Context {T : Type} `{Scalar T}.
Local Open Scope scalar_scope.

(** C5: a trajectory returned by [solveAdams3(h, x_end)] has at least 3
    points, and its first three are the initial condition, rk4Step(initial,
    h) and rk4Step(rk4Step(initial, h), h), the same as the first three
    points of any RK4 trajectory of the same solver and step that is that
    long; there is no condition on x_end. *)
Theorem solveAdams3_bootstrap (fuel : nat) (h x_end : T)
    (self self' : ODESolver T) (traj : list (State T)) :
  solveAdams3 fuel h x_end self = (self', Returned traj) ->
  let initial := m_initial_state self in
  let s1 := spec_rk4Step (m_ode self) initial h in
  let s2 := spec_rk4Step (m_ode self) s1 h in
  (3 <= length traj)%nat /\
  firstn 3 traj = [initial; s1; s2] /\
  rk4Step initial h self = (self, Returned s1) /\
  rk4Step s1 h self = (self, Returned s2) /\
  forall fuel' x_end' self'' traj',
    solveRK4 fuel' h x_end' self = (self'', Returned traj') ->
    (3 <= length traj')%nat ->
    firstn 3 traj' = firstn 3 traj.
Proof.
  intros Hrun initial s1 s2.
  destruct (solveAdams3_partial fuel h x_end self)
    as [Hto | (t & last & Hr & Ht & _)]; rewrite Hrun in *; [discriminate|].
  injection Hr as _ ->.
  pose proof (Trajectory_length Ht) as Hlen.
  assert (H3 : firstn 3 t = [initial; s1; s2]) by exact (traj_boot Ht).
  split; [exact Hlen|]. split; [exact H3|].
  split; [apply rk4Step_run|]. split; [apply rk4Step_run|].
  intros fuel' x_end' self'' traj' Hrun' Hlen'.
  destruct (solveRK4_partial fuel' h x_end' self)
    as [Hto | (t' & last' & Hr' & Ht' & _)]; rewrite Hrun' in *;
    [discriminate|].
  injection Hr' as _ ->.
  rewrite H3.
  apply (stepwise_prefix3 (fun c => spec_rk4Step (m_ode self) c h)).
  - exact (traj_steps Ht').
  - now apply (Trajectory_head Ht').
  - exact Hlen'.
Qed.

(** C6: [calculateRungeError(fine, coarse, p)] returns, for any two
    trajectories and any order, the sequence of
    |fine[2i].y - coarse[i].y| / (1 - 2^-p) for i below
    min(ceil(len(fine) / 2), len(coarse)); it never fails, whatever the
    lengths. *)
Theorem calculateRungeError_spec (fine coarse : list (State T)) (p : T) :
  exists errors,
    calculateRungeError fine coarse p = Returned errors /\
    length errors = Nat.min ((length fine + 1) / 2) (length coarse) /\
    forall i,
      nth_error errors i =
      if (i <? length errors)%nat then
        match nth_error fine (2 * i), nth_error coarse i with
        | Some fine_2i, Some coarse_i =>
            Some (abs (y fine_2i - y coarse_i) / (lit 1 - pow (lit 2) (- p)))
        | _, _ => None
        end
      else None.
Proof.
  destruct (@runge_loop_from _ _ fine coarse p _ 0%nat [] eq_refl)
    as (rest & Hr & Hlen & Hnth); [lia|].
  exists rest. split; [exact Hr|].
  rewrite Nat.sub_0_r in Hlen. split; [exact Hlen|].
  intros i. rewrite Hnth, Nat.sub_0_r, <- Hlen. reflexivity.
Qed.

(** C9: a solve method hands the solver object back as it received it, so
    a second call with the same arguments starts from the same ODE function
    and initial state and has the same outcome as the first. *)
Theorem solve_twice (m : Method) (fuel1 fuel2 : nat) (h x_end : T)
    (self : ODESolver T) :
  let first := solve m fuel1 h x_end self in
  let second := solve m fuel2 h x_end (fst first) in
  fst first = self /\ fst second = self /\
  (fuel1 = fuel2 -> snd second = snd first) /\
  (forall t1 t2,
     snd first = Returned t1 -> snd second = Returned t2 -> t1 = t2).
Proof.
  cbv zeta.
  destruct (quiet_solve m fuel1 h x_end self) as [Hs1 _].
  destruct (quiet_solve m fuel2 h x_end self) as [Hs2 _].
  rewrite Hs1. split; [reflexivity|]. split; [exact Hs2|].
  split; [now intros ->|].
  intros t1 t2 H1 H2.
  apply (@solve_fuel_irrelevant _ _ m fuel1 fuel2 h x_end self self self).
  - rewrite <- Hs1 at 2. rewrite <- H1. apply surjective_pairing.
  - rewrite <- Hs2 at 2. rewrite <- H2. apply surjective_pairing.
Qed.

End Solvers.

(** Two calls on the test equation, over the rationals. *)
Lemma solve_twice_witness :
  let first := solve RK4 10 (1#2)%Q 1%Q harmonic in
  let second := solve RK4 10 (1#2)%Q 1%Q (fst first) in
  fst first = harmonic /\ fst second = harmonic /\
  (10%nat = 10%nat -> snd second = snd first) /\
  (forall t1 t2,
     snd first = Returned t1 -> snd second = Returned t2 -> t1 = t2).
Proof. exact (solve_twice (T := Q) RK4 10 10 (1#2)%Q 1%Q harmonic). Defined.

(** The bootstrap on the test equation, with the endpoint closer than two
    steps: h = 1/2 and x_end = 1/4. *)
Lemma solveAdams3_bootstrap_witness :
  let traj := [mkState 0 0 1;
               mkState (1#2) (23#48) (337#384);
               mkState 1 (7751#9216) (8857#16384)]%Q in
  let initial := m_initial_state (T := Q) harmonic in
  let s1 := spec_rk4Step (m_ode harmonic) initial (1#2)%Q in
  let s2 := spec_rk4Step (m_ode harmonic) s1 (1#2)%Q in
  (3 <= length traj)%nat /\
  firstn 3 traj = [initial; s1; s2] /\
  rk4Step initial (1#2)%Q harmonic = (harmonic, Returned s1) /\
  rk4Step s1 (1#2)%Q harmonic = (harmonic, Returned s2) /\
  forall fuel' x_end' self'' traj',
    solveRK4 fuel' (1#2)%Q x_end' harmonic = (self'', Returned traj') ->
    (3 <= length traj')%nat ->
    firstn 3 traj' = firstn 3 traj.
Proof.
  apply (solveAdams3_bootstrap (T := Q) 10 (1#2)%Q (1#4)%Q harmonic
           (self' := harmonic)).
  vm_compute. reflexivity.
Defined.

(** ** Runs over the rationals *)

Example solveEuler_harmonic :
  snd (solveEuler 10 (1#2)%Q 1%Q harmonic)
  = Returned [mkState 0 0 1; mkState (1#2) (1#2) 1; mkState 1 1 (3#4)]%Q.
Proof. vm_compute. reflexivity. Qed.

Example solveRK4_harmonic :
  snd (solveRK4 10 (1#2)%Q 1%Q harmonic)
  = Returned [mkState 0 0 1;
              mkState (1#2) (23#48) (337#384);
              mkState 1 (7751#9216) (8857#16384)]%Q.
Proof. vm_compute. reflexivity. Qed.

Example solveAdams3_harmonic :
  option_map x
    (match snd (solveAdams3 10 (1#2)%Q 2%Q harmonic) with
     | Returned traj => back traj
     | _ => None
     end)
  = Some 2%Q.
Proof. vm_compute. reflexivity. Qed.

(** Two steps are needed, one unit of fuel is not enough. *)
Example solveEuler_out_of_fuel :
  snd (solveEuler 1 (1#2)%Q 1%Q harmonic) = Timeout.
Proof. vm_compute. reflexivity. Qed.

(** A fine trajectory of 9 points against a coarse one of 3: 3 estimates. *)
Example calculateRungeError_truncates :
  match snd (solveRK4 30 (1#2)%Q 4%Q harmonic),
        snd (solveRK4 30 1%Q 2%Q harmonic) with
  | Returned fine, Returned coarse =>
      (length fine, length coarse,
       calculateRungeError fine coarse 4%Q)
  | _, _ => (0, 0, Undefined)%nat
  end
  = (9, 3, Returned [0; 71 # 8640; 164389 # 23592960]%Q)%nat.
Proof. vm_compute. reflexivity. Qed.

(** * Properties in exact real arithmetic *)

Section Exact.

Local Open Scope R_scope.

Ltac scalar_R :=
  cbn [lit add sub mul div opp abs pow ltb Scalar_R] in *.

Lemma Rltb_true (a b : R) : a < b -> Rltb a b = true.
Proof. intros Hab. unfold Rltb. now destruct (Rlt_dec a b). Qed.

Lemma Rltb_false (a b : R) : b <= a -> Rltb a b = false.
Proof. intros Hab. unfold Rltb. destruct (Rlt_dec a b); [lra | reflexivity]. Qed.

Lemma guard_true (h x_end : R) (s : State R) :
  guard h x_end s = true <-> x s < x_end - h / 2.
Proof.
  unfold guard. scalar_R. unfold Rltb.
  destruct (Rlt_dec (x s) (x_end - h / 2)); split; intros; try easy.
Qed.

Lemma guard_false (h x_end : R) (s : State R) :
  guard h x_end s = false <-> x_end - h / 2 <= x s.
Proof.
  unfold guard. scalar_R. unfold Rltb.
  destruct (Rlt_dec (x s) (x_end - h / 2)); split; intros; try easy; lra.
Qed.

Lemma steps_bound_enough (x0 h x_end : R) :
  0 < h -> x_end - h / 2 - x0 <= INR (steps_bound x0 h x_end) * h.
Proof.
  intros Hh. unfold steps_bound.
  set (r := (x_end - h / 2 - x0) / h).
  assert (Hr : r <= INR (Z.to_nat (Zceil r))).
  { destruct (Zceil_bound r) as [_ Hc].
    destruct (Z.le_gt_cases 0 (Zceil r)) as [Hz|Hz].
    - rewrite INR_IZR_INZ, Z2Nat.id by exact Hz. exact Hc.
    - replace (Z.to_nat (Zceil r)) with 0%nat by lia.
      apply (IZR_lt _ 0) in Hz. simpl. lra. }
  replace (x_end - h / 2 - x0) with (r * h) by (unfold r; field; lra).
  apply Rmult_le_compat_r; lra.
Qed.

(** ** Termination *)

Lemma single_step_total (step : State R -> R -> @M R (State R))
    (next : State R -> State R) (fuel n : nat) (h x_end : R)
    (self : ODESolver R) :
  (forall c, step c h self = (self, Returned (next c))) ->
  (forall c, x (next c) = x c + h) ->
  0 < h ->
  x_end - h / 2 - x (m_initial_state self) <= INR n * h ->
  (n <= fuel)%nat ->
  exists traj,
    single_step_solve step fuel h x_end self = (self, Returned traj) /\
    (length traj <= 1 + n)%nat.
Proof.
  intros Hstep Hx Hh Hn Hfuel.
  unfold single_step_solve.
  match goal with |- context [while fuel ?c ?b] =>
    set (cond := c); set (body := b) end.
  unfold bind, this, push_back; simpl.
  destruct (@while_total R _
              (fun k (st : (State R * list (State R))%type) =>
                 x_end - h / 2 - x (fst st) <= INR k * h /\
                 (length (snd st) + k <= 1 + n)%nat)
              (fun st => guard h x_end (fst st)) self cond body)
    with (n := n) (fuel := fuel)
         (st := (m_initial_state self, [m_initial_state self]))
    as ([c v] & k & Hr & [_ Hlen] & _).
  - intros k [c v] _. reflexivity.
  - intros k [c v] [Hk Hlen] Hg. simpl in *.
    apply guard_true in Hg.
    destruct k as [|k]; [simpl in Hk; lra|].
    exists k, (next c, push_back v (next c)). split; [reflexivity|]. split.
    + unfold body, bind. now rewrite Hstep.
    + simpl. rewrite Hx. rewrite S_INR in Hk. unfold push_back.
      rewrite length_app. simpl. split; [lra | lia].
  - simpl. split; [exact Hn | lia].
  - exact Hfuel.
  - exists v. rewrite Hr. simpl in Hlen. split; [reflexivity | lia].
Qed.

Lemma solveAdams3_total (fuel n : nat) (h x_end : R) (self : ODESolver R) :
  0 < h ->
  x_end - h / 2 - x (m_initial_state self) <= INR n * h ->
  (n <= fuel)%nat ->
  exists traj,
    solveAdams3 fuel h x_end self = (self, Returned traj) /\
    (length traj <= 3 + n)%nat.
Proof.
  intros Hh Hn Hfuel.
  unfold solveAdams3.
  match goal with |- context [while fuel ?c ?b] =>
    set (cond := c); set (body := b) end.
  match goal with |- context [for_ ?r ?b ?v] =>
    assert (Hboot : for_ r b v self
                    = (self, Returned (bootstrap Adams3 self h)))
      by reflexivity;
    set (boot := for_ r b v) in *
  end.
  unfold bind. rewrite Hboot.
  set (guard_back := fun v : list (State R) =>
         match back v with
         | Some last => guard h x_end last
         | None => false
         end).
  destruct (@while_total R _
              (fun k (v : list (State R)) =>
                 (3 <= length v)%nat /\
                 (forall last, back v = Some last ->
                               x_end - h / 2 - x last <= INR k * h) /\
                 (length v + k <= 3 + n)%nat)
              guard_back self cond body)
    with (n := n) (fuel := fuel) (st := bootstrap Adams3 self h)
    as (v & k & Hr & (_ & _ & Hlen) & _).
  - intros k v (Hlen & _ & _).
    destruct (back_some v) as [last Hlast]; [lia|].
    unfold cond, guard_back, bind. rewrite Hlast. reflexivity.
  - intros k v (Hlen & Hk & Hle) Hg.
    destruct (last_three_some v Hlen) as (older & p2 & p1 & c & Hv3 & _).
    assert (Hc : back v = Some c).
    { rewrite Hv3.
      change (older ++ [p2; p1; c]) with (older ++ [p2; p1] ++ [c]).
      rewrite app_assoc. apply back_push_back. }
    unfold guard_back in Hg. rewrite Hc in Hg. apply guard_true in Hg.
    specialize (Hk c Hc).
    destruct k as [|k]; [simpl in Hk; lra|].
    set (next := spec_adams3Step (m_ode self) c p1 p2 h).
    exists k, (push_back v next). split; [reflexivity|]. split.
    + unfold body, bind. rewrite Hv3 at 1. now rewrite adams3Step_run.
    + unfold push_back. rewrite length_app. simpl.
      split; [lia|]. split; [|lia].
      intros last Hlast.
      change (v ++ [next]) with (push_back v next) in Hlast.
      rewrite back_push_back in Hlast. injection Hlast as <-.
      rewrite S_INR in Hk. unfold next. simpl. scalar_R. lra.
  - split; [simpl; lia|]. split; [|simpl; lia].
    intros last Hlast. injection Hlast as <-. simpl. scalar_R. lra.
  - exact Hfuel.
  - exists v. split; [exact Hr | lia].
Qed.

(** Every method returns once the fuel covers the distance to the exit. *)
Lemma solve_total (m : Method) (fuel n : nat) (h x_end : R)
    (self : ODESolver R) :
  0 < h ->
  x_end - h / 2 - x (m_initial_state self) <= INR n * h ->
  (n <= fuel)%nat ->
  exists traj,
    solve m fuel h x_end self = (self, Returned traj) /\
    (length traj <= boot_points m + n)%nat.
Proof.
  intros Hh Hn Hfuel. destruct m; simpl solve; simpl boot_points.
  - apply (single_step_total eulerStep
             (fun c => spec_eulerStep (m_ode self) c h));
      auto using eulerStep_run.
  - apply (single_step_total rk4Step
             (fun c => spec_rk4Step (m_ode self) c h));
      auto using rk4Step_run.
  - now apply solveAdams3_total.
Qed.

(** ** Non-termination with a non-positive step *)

Lemma single_step_diverges (step : State R -> R -> @M R (State R))
    (next : State R -> State R) (fuel : nat) (h x_end : R)
    (self : ODESolver R) :
  (forall c, step c h self = (self, Returned (next c))) ->
  (forall c, x (next c) = x c + h) ->
  h <= 0 -> x (m_initial_state self) < x_end - h / 2 ->
  single_step_solve step fuel h x_end self = (self, Timeout).
Proof.
  intros Hstep Hx Hh Hx0.
  unfold single_step_solve.
  match goal with |- context [while fuel ?c ?b] =>
    set (cond := c); set (body := b) end.
  unfold bind, this, push_back; simpl.
  rewrite (@while_diverges R _
             (fun st : (State R * list (State R))%type =>
                x (fst st) < x_end - h / 2) self cond body);
    [reflexivity | | | exact Hx0].
  - intros [c v] Hc. unfold cond, ret. simpl in Hc.
    scalar_R. now rewrite Rltb_true.
  - intros [c v] Hc. simpl in Hc.
    exists (next c, push_back v (next c)). split.
    + unfold body, bind. now rewrite Hstep.
    + simpl. rewrite Hx. lra.
Qed.

(** With h <= 0 the loops of [solveEuler] and [solveRK4] never exit once
    they are entered: x does not grow. *)
Lemma solve_nonpositive_step_diverges (m : Method) (fuel : nat)
    (h x_end : R) (self : ODESolver R) :
  m <> Adams3 -> h <= 0 -> x (m_initial_state self) < x_end - h / 2 ->
  solve m fuel h x_end self = (self, Timeout).
Proof.
  intros Hm Hh Hx0. destruct m; [| |contradiction]; simpl solve.
  - apply (single_step_diverges eulerStep
             (fun c => spec_eulerStep (m_ode self) c h));
      auto using eulerStep_run.
  - apply (single_step_diverges rk4Step
             (fun c => spec_rk4Step (m_ode self) c h));
      auto using rk4Step_run.
Qed.

(** ** The shape of a returned trajectory *)

Lemma advances_far (h : R) (v : list (State R)) :
  stepwise (advances h) v ->
  forall j i a b,
    nth_error v i = Some a -> nth_error v (i + j) = Some b ->
    x b = x a + INR j * h.
Proof.
  intros Hs. induction j as [|j IH]; intros i a b Ha Hb.
  - rewrite Nat.add_0_r in Hb. simpl. replace b with a by congruence. lra.
  - destruct (nth_error v (i + j)) as [c|] eqn:Hc.
    + rewrite (Hs (i + j)%nat c b Hc) by (now rewrite <- Nat.add_succ_r).
      rewrite (IH i a c Ha Hc), S_INR. scalar_R. lra.
    + apply nth_error_None in Hc.
      assert (nth_error v (i + S j) = None) by (apply nth_error_None; lia).
      congruence.
Qed.




(** ** Returned trajectories *)











End Exact.

(** * More on the solvers, for every scalar arithmetic *)

Section GridFacts.

Context {T : Type} `{Scalar T}.
Local Open Scope scalar_scope.

Lemma grid_head (fuel : nat) (h x_end xc : T) (l : list T) :
  grid fuel h x_end xc = Returned l -> exists l', l = xc :: l'.
Proof.
  destruct fuel as [|fuel]; simpl; destruct (xc <? x_end - h / lit 2);
    try discriminate; try (intros [= <-]; now exists []).
  destruct (grid fuel h x_end (xc + h)) as [l0| | |]; try discriminate.
  intros [= <-]. now exists l0.
Qed.

Lemma grid_cases (fuel : nat) (h x_end xc : T) :
  grid fuel h x_end xc = Timeout \/
  exists l, grid fuel h x_end xc = Returned l.
Proof.
  revert xc. induction fuel as [|fuel IH]; intros xc; simpl;
    destruct (xc <? x_end - h / lit 2); eauto.
  destruct (IH (xc + h)) as [-> | [l ->]]; simpl; eauto.
Qed.

Lemma grid_fuel_irrelevant (h x_end : T) :
  forall fuel1 fuel2 xc l1 l2,
    grid fuel1 h x_end xc = Returned l1 ->
    grid fuel2 h x_end xc = Returned l2 -> l1 = l2.
Proof.
  induction fuel1 as [|fuel1 IH]; intros fuel2 xc l1 l2;
    destruct fuel2 as [|fuel2]; simpl;
    destruct (xc <? x_end - h / lit 2); try discriminate;
    try (intros [= <-] [= <-]; reflexivity).
  destruct (grid fuel1 h x_end (xc + h)) as [r1| | |] eqn:E1;
    try discriminate.
  destruct (grid fuel2 h x_end (xc + h)) as [r2| | |] eqn:E2;
    try discriminate.
  intros [= <-] [= <-]. f_equal. exact (IH _ _ _ _ E1 E2).
Qed.

(** The loop of [solveEuler] and [solveRK4] walks the grid. *)
Lemma single_step_loop_grid (step : State T -> T -> @M T (State T))
    (next : State T -> State T) (h x_end : T) (self : ODESolver T) :
  (forall c, step c h self = (self, Returned (next c))) ->
  (forall c, x (next c) = x c + h) ->
  forall fuel c v,
    exists o,
      while fuel
        (fun '(current, _) => ret (x current <? x_end - h / lit 2))
        (fun '(current, solution) =>
           current <- step current h ;;
           ret (current, push_back solution current))
        (c, v) self = (self, o) /\
      outcome_map (fun st => map x (snd st)) o
      = outcome_map (fun l => map x v ++ tl l) (grid fuel h x_end (x c)).
Proof.
  intros Hstep Hx.
  induction fuel as [|fuel IH]; intros c v; simpl; unfold bind, ret;
    destruct (x c <? x_end - h / lit 2) eqn:Hg.
  - now exists Timeout.
  - exists (Returned (c, v)). simpl. now rewrite app_nil_r.
  - rewrite Hstep.
    destruct (IH (next c) (push_back v (next c))) as (o & Hw & Ho).
    exists o. split; [exact Hw|]. rewrite Ho, Hx.
    destruct (grid fuel h x_end (x c + h)) as [l| | |] eqn:Hgrid;
      try reflexivity.
    destruct (grid_head _ _ _ _ Hgrid) as [l' ->]. simpl.
    unfold push_back. rewrite map_app, <- app_assoc. simpl.
    now rewrite Hx.
  - exists (Returned (c, v)). simpl. now rewrite app_nil_r.
Qed.

Lemma single_step_grid (step : State T -> T -> @M T (State T))
    (next : State T -> State T) (fuel : nat) (h x_end : T)
    (self : ODESolver T) :
  (forall c, step c h self = (self, Returned (next c))) ->
  (forall c, x (next c) = x c + h) ->
  exists o,
    single_step_solve step fuel h x_end self = (self, o) /\
    outcome_map (map x) o = grid fuel h x_end (x (m_initial_state self)).
Proof.
  intros Hstep Hx. unfold single_step_solve.
  unfold bind at 1. unfold this at 1. unfold bind at 1.
  destruct (@single_step_loop_grid step next h x_end self Hstep Hx fuel
              (m_initial_state self) (push_back [] (m_initial_state self)))
    as (o & Hw & Ho).
  rewrite Hw.
  destruct (grid_cases fuel h x_end (x (m_initial_state self)))
    as [Hg | [l Hg]]; rewrite Hg in *.
  - destruct o as [[c v]| | |]; try discriminate. now exists Timeout.
  - destruct (grid_head _ _ _ _ Hg) as [l' ->].
    destruct o as [[c v]| | |]; try discriminate.
    exists (Returned v). split; [reflexivity|].
    simpl in Ho. simpl. exact Ho.
Qed.

Lemma solve_single_grid (m : Method) (fuel : nat) (h x_end : T)
    (self : ODESolver T) :
  m <> Adams3 ->
  exists o,
    solve m fuel h x_end self = (self, o) /\
    outcome_map (map x) o = grid fuel h x_end (x (m_initial_state self)).
Proof.
  intros Hm. destruct m; [| |contradiction]; simpl solve.
  - apply (single_step_grid eulerStep
             (fun c => spec_eulerStep (m_ode self) c h));
      [intros; apply eulerStep_run | reflexivity].
  - apply (single_step_grid rk4Step
             (fun c => spec_rk4Step (m_ode self) c h));
      [intros; apply rk4Step_run | reflexivity].
Qed.

Lemma grid_unfold (fuel : nat) (h x_end xc a b : T) (l : list T) :
  grid fuel h x_end xc = Returned (a :: b :: l) ->
  a = xc /\ exists fuel', grid fuel' h x_end (xc + h) = Returned (b :: l).
Proof.
  destruct fuel as [|fuel]; simpl; destruct (xc <? x_end - h / lit 2);
    try discriminate.
  destruct (grid fuel h x_end (xc + h)) as [l0| | |] eqn:Hg;
    try discriminate.
  intros [= <- <-]. split; [reflexivity|]. now exists fuel.
Qed.

(** The loop of [solveAdams3] walks the grid from the last bootstrap point. *)
Lemma adams_loop_grid (h x_end : T) (self : ODESolver T) :
  forall fuel v last,
    (3 <= length v)%nat -> back v = Some last ->
    exists o,
      while fuel
        (fun solution =>
           last <- defined (back solution) ;;
           ret (x last <? x_end - h / lit 2))
        (fun solution =>
           next <- adams3Step solution h ;;
           ret (push_back solution next))
        v self = (self, o) /\
      outcome_map (map x) o
      = outcome_map (fun l => map x v ++ tl l) (grid fuel h x_end (x last)).
Proof.
  induction fuel as [|fuel IH]; intros v last Hlen Hb; cbn [while grid];
    unfold bind at 1 2; rewrite Hb; cbn [defined]; unfold ret at 1 2;
    cbv beta iota; destruct (x last <? x_end - h / lit 2) eqn:Hg.
  - now exists Timeout.
  - exists (Returned v). split; [reflexivity|]. simpl. now rewrite app_nil_r.
  - destruct (last_three_some v Hlen) as (older & p2 & p1 & c & Hv & _).
    assert (Hc : back v = Some c).
    { rewrite Hv.
      change (older ++ [p2; p1; c]) with (older ++ [p2; p1] ++ [c]).
      rewrite app_assoc. apply back_push_back. }
    assert (c = last) by congruence. subst c.
    set (next := spec_adams3Step (m_ode self) last p1 p2 h).
    assert (Hrun : adams3Step v h self = (self, Returned next))
      by (rewrite Hv; apply adams3Step_run).
    destruct (IH (push_back v next) next) as (o & Hw & Ho).
    { unfold push_back. rewrite length_app. simpl. lia. }
    { apply back_push_back. }
    exists o. split.
    + unfold bind at 1 2. rewrite Hrun. exact Hw.
    + rewrite Ho. change (x next) with (x last + h).
      destruct (grid fuel h x_end (x last + h)) as [l| | |] eqn:Hgrid;
        try reflexivity.
      destruct (grid_head _ _ _ _ Hgrid) as [l' ->]. simpl.
      unfold push_back. rewrite map_app, <- app_assoc. reflexivity.
  - exists (Returned v). split; [reflexivity|]. simpl. now rewrite app_nil_r.
Qed.

Lemma solveAdams3_grid (fuel : nat) (h x_end : T) (self : ODESolver T) :
  let x0 := x (m_initial_state self) in
  exists o,
    solveAdams3 fuel h x_end self = (self, o) /\
    outcome_map (map x) o
    = outcome_map (fun l => x0 :: (x0 + h) :: l)
        (grid fuel h x_end (x0 + h + h)).
Proof.
  intros x0. unfold solveAdams3.
  match goal with |- context [for_ ?r ?b ?v] =>
    assert (Hboot : for_ r b v self
                    = (self, Returned (bootstrap Adams3 self h)))
      by reflexivity;
    set (boot := for_ r b v) in *
  end.
  unfold bind at 1. rewrite Hboot.
  set (s1 := spec_rk4Step (m_ode self) (m_initial_state self) h).
  set (s2 := spec_rk4Step (m_ode self) s1 h).
  destruct (@adams_loop_grid h x_end self fuel (bootstrap Adams3 self h) s2)
    as (o & Hw & Ho); [simpl; lia | reflexivity |].
  exists o. split; [exact Hw|]. rewrite Ho.
  change (x s2) with (x0 + h + h).
  destruct (grid fuel h x_end (x0 + h + h)) as [l| | |] eqn:Hgrid;
    try reflexivity.
  destruct (grid_head _ _ _ _ Hgrid) as [l' ->]. reflexivity.
Qed.

(** X1: the x coordinates that [solveEuler] and [solveRK4] return depend
    only on the initial x, the step and the endpoint: two calls with the
    same h and x_end on solvers that start at the same x have the same
    outcome up to the x coordinates, whichever of the two methods each
    uses and whatever the ODE functions and the initial y and dy are. *)
Theorem grid_independent (m1 m2 : Method) (fuel : nat) (h x_end : T)
    (self1 self2 : ODESolver T) :
  m1 <> Adams3 -> m2 <> Adams3 ->
  x (m_initial_state self1) = x (m_initial_state self2) ->
  outcome_map (map x) (snd (solve m1 fuel h x_end self1))
  = outcome_map (map x) (snd (solve m2 fuel h x_end self2)).
Proof.
  intros Hm1 Hm2 Hx0.
  destruct (solve_single_grid fuel h x_end self1 Hm1) as (o1 & Hs1 & Hg1).
  destruct (solve_single_grid fuel h x_end self2 Hm2) as (o2 & Hs2 & Hg2).
  rewrite Hs1, Hs2. simpl. now rewrite Hg1, Hg2, Hx0.
Qed.

(** X2: a trajectory of [solveAdams3] is at least as long as one of
    [solveEuler] or [solveRK4] for the same initial x, h and x_end, and
    has the same x coordinates once that one has 3 points or more. *)
Theorem adams_grid (m : Method) (fuel1 fuel2 : nat) (h x_end : T)
    (self1 self2 self1' self2' : ODESolver T) (t ta : list (State T)) :
  m <> Adams3 ->
  x (m_initial_state self1) = x (m_initial_state self2) ->
  solve m fuel1 h x_end self1 = (self1', Returned t) ->
  solveAdams3 fuel2 h x_end self2 = (self2', Returned ta) ->
  (length t <= length ta)%nat /\
  ((3 <= length t)%nat -> map x ta = map x t).
Proof.
  intros Hm Hx0 Ht Hta.
  destruct (solve_single_grid fuel1 h x_end self1 Hm) as (o1 & Ho1 & Hg1).
  rewrite Ht in Ho1. injection Ho1 as _ <-. simpl in Hg1.
  destruct (solveAdams3_grid fuel2 h x_end self2) as (o2 & Ho2 & Hg2).
  rewrite Hta in Ho2. injection Ho2 as _ <-. simpl in Hg2.
  destruct (grid fuel2 h x_end _) as [l2| | |] eqn:Hgrid2; try discriminate.
  simpl in Hg2. injection Hg2 as Hg2.
  assert (Hlen : (3 <= length t)%nat -> map x ta = map x t).
  { intros H3. rewrite <- (length_map x) in H3.
    destruct (map x t) as [|a [|b [|c l]]] eqn:Hmap; simpl in H3; try lia.
    symmetry in Hg1.
    destruct (grid_unfold _ _ _ _ Hg1) as [-> (f1 & Hg1')].
    destruct (grid_unfold _ _ _ _ Hg1') as [-> (f2 & Hg1'')].
    rewrite Hg2, <- Hx0. do 2 f_equal.
    rewrite Hx0 in Hg1''.
    exact (@grid_fuel_irrelevant h x_end _ _ _ _ _ Hgrid2 Hg1''). }
  split; [|exact Hlen].
  destruct (Nat.le_gt_cases 3 (length t)) as [H3|H3].
  - rewrite <- (length_map x t), <- (Hlen H3), length_map. lia.
  - apply (f_equal (@length _)) in Hg2. rewrite length_map in Hg2.
    simpl in Hg2. lia.
Qed.

(** ** The recurrences behind the trajectories *)

(** Whatever holds of the bootstrap points and is kept when the Adams step
    of the last three points is appended holds of a returned trajectory. *)
Lemma solveAdams3_invariant (P : list (State T) -> Prop) (fuel : nat)
    (h x_end : T) (self self' : ODESolver T) (traj : list (State T)) :
  P (bootstrap Adams3 self h) ->
  (forall older p2 p1 c,
     P (older ++ [p2; p1; c]) -> guard h x_end c = true ->
     P (push_back (older ++ [p2; p1; c])
                  (spec_adams3Step (m_ode self) c p1 p2 h))) ->
  solveAdams3 fuel h x_end self = (self', Returned traj) -> P traj.
Proof.
  intros Hboot Hpush. unfold solveAdams3.
  match goal with |- context [while fuel ?c ?b] =>
    set (cond := c); set (body := b) end.
  match goal with |- context [for_ ?r ?b ?v] =>
    assert (Hfor : for_ r b v self
                   = (self, Returned (bootstrap Adams3 self h)))
      by reflexivity;
    set (boot := for_ r b v) in *
  end.
  unfold bind. rewrite Hfor.
  set (guard_back := fun v : list (State T) =>
         match back v with
         | Some last => guard h x_end last
         | None => false
         end).
  destruct (@while_partial _ _
              (fun v => P v /\ (3 <= length v)%nat)
              guard_back self cond body)
    with (fuel := fuel) (st := bootstrap Adams3 self h)
    as [Hto | (v & Hr & [Hv _] & _)].
  - intros v [_ Hlen].
    destruct (back_some v) as [last Hlast]; [lia|].
    unfold cond, guard_back, bind. rewrite Hlast. reflexivity.
  - intros v [Hv Hlen] Hg.
    destruct (last_three_some v Hlen) as (older & p2 & p1 & c & Hv3 & _).
    assert (Hc : back v = Some c).
    { rewrite Hv3.
      change (older ++ [p2; p1; c]) with (older ++ [p2; p1] ++ [c]).
      rewrite app_assoc. apply back_push_back. }
    unfold guard_back in Hg. rewrite Hc in Hg.
    exists (push_back v (spec_adams3Step (m_ode self) c p1 p2 h)). split.
    + unfold body, bind. rewrite Hv3 at 1. now rewrite adams3Step_run.
    + split.
      * rewrite Hv3 in Hv |- *. now apply Hpush.
      * unfold push_back. rewrite length_app. simpl. lia.
  - split; [exact Hboot | simpl; lia].
  - rewrite Hto. discriminate.
  - rewrite Hr. now intros [= _ <-].
Qed.

Lemma adams_linked_push (f : SecondOrderODE T) (h : T)
    (older : list (State T)) (p2 p1 c : State T) :
  adams_linked f h (older ++ [p2; p1; c]) ->
  adams_linked f h (push_back (older ++ [p2; p1; c])
                              (spec_adams3Step f c p1 p2 h)).
Proof.
  intros Hl i a b c' d Ha Hb Hc Hd.
  set (v := older ++ [p2; p1; c]) in *.
  assert (Hlen : length v = (length older + 3)%nat)
    by (unfold v; rewrite length_app; reflexivity).
  unfold push_back in *.
  destruct (Nat.lt_trichotomy (S (S (S i))) (length v)) as [Hlt|[Heq|Hgt]].
  - rewrite nth_error_app1 in Ha, Hb, Hc, Hd by lia. eauto.
  - rewrite nth_error_app1 in Ha, Hb, Hc by lia.
    rewrite nth_error_app2 in Hd by lia.
    replace (S (S (S i)) - length v)%nat with 0%nat in Hd by lia.
    injection Hd as <-.
    assert (Hi : i = length older) by lia. subst i. unfold v in Ha, Hb, Hc.
    rewrite nth_error_app2 in Ha, Hb, Hc by lia.
    replace (length older - length older)%nat with 0%nat in Ha by lia.
    replace (S (length older) - length older)%nat with 1%nat in Hb by lia.
    replace (S (S (length older)) - length older)%nat with 2%nat in Hc
      by lia.
    simpl in Ha, Hb, Hc. congruence.
  - rewrite nth_error_app2 in Hd by lia.
    destruct (S (S (S i)) - length v)%nat as [|[|k]] eqn:Hk; [lia| |];
      discriminate.
Qed.

Lemma solveAdams3_linked (fuel : nat) (h x_end : T)
    (self self' : ODESolver T) (traj : list (State T)) :
  solveAdams3 fuel h x_end self = (self', Returned traj) ->
  adams_linked (m_ode self) h traj.
Proof.
  apply (solveAdams3_invariant (adams_linked (m_ode self) h)).
  - intros [|[|[|i]]] a b c d Ha Hb Hc Hd; discriminate.
  - intros older p2 p1 c Hl _. now apply adams_linked_push.
Qed.

(** X3: in a trajectory returned by [solveEuler] or [solveRK4] every point
    after the first is what the method's step function returns on the point
    before it. *)
Theorem single_step_recurrence (m : Method) (fuel : nat) (h x_end : T)
    (self self' : ODESolver T) (traj : list (State T)) :
  m <> Adams3 ->
  solve m fuel h x_end self = (self', Returned traj) ->
  forall i a b,
    nth_error traj i = Some a -> nth_error traj (S i) = Some b ->
    step_of m a h self = (self, Returned b).
Proof.
  intros Hm Hrun i a b Ha Hb.
  destruct m; [| |contradiction]; simpl solve in Hrun; simpl step_of.
  - destruct (solveEuler_partial fuel h x_end self)
      as [Hto | (t & last & Hr & Ht & _)]; rewrite Hrun in *;
      [discriminate|].
    injection Hr as _ ->.
    rewrite (traj_steps Ht _ Ha Hb). apply eulerStep_run.
  - destruct (solveRK4_partial fuel h x_end self)
      as [Hto | (t & last & Hr & Ht & _)]; rewrite Hrun in *;
      [discriminate|].
    injection Hr as _ ->.
    rewrite (traj_steps Ht _ Ha Hb). apply rk4Step_run.
Qed.

(** X4: in a trajectory returned by [solveAdams3] every point from the
    fourth on is what [adams3Step] returns on the trajectory before it,
    that is, on the three points before it. *)
Theorem adams_recurrence (fuel : nat) (h x_end : T)
    (self self' : ODESolver T) (traj : list (State T)) :
  solveAdams3 fuel h x_end self = (self', Returned traj) ->
  forall i d,
    (3 <= i)%nat -> nth_error traj i = Some d ->
    adams3Step (firstn i traj) h self = (self, Returned d) /\
    exists a b c,
      nth_error traj (i - 3) = Some a /\ nth_error traj (i - 2) = Some b /\
      nth_error traj (i - 1) = Some c /\
      adams3Step [a; b; c] h self = (self, Returned d).
Proof.
  intros Hrun i d Hi Hd.
  pose proof (solveAdams3_linked _ _ _ _ Hrun) as Hl.
  assert (Hlt : (i < length traj)%nat) by (apply nth_error_Some; congruence).
  destruct (nth_error traj (i - 3)) as [a|] eqn:Ha;
    [|apply nth_error_None in Ha; lia].
  destruct (nth_error traj (i - 2)) as [b|] eqn:Hb;
    [|apply nth_error_None in Hb; lia].
  destruct (nth_error traj (i - 1)) as [c|] eqn:Hc;
    [|apply nth_error_None in Hc; lia].
  assert (Hd' : d = spec_adams3Step (m_ode self) c b a h).
  { apply (Hl (i - 3)%nat); [exact Ha | | |].
    - now replace (S (i - 3)) with (i - 2)%nat by lia.
    - now replace (S (S (i - 3))) with (i - 1)%nat by lia.
    - now replace (S (S (S (i - 3)))) with i by lia. }
  assert (Hpre : firstn i traj = firstn (i - 3) traj ++ [a; b; c]).
  { rewrite <- (firstn_skipn (i - 3) (firstn i traj)).
    rewrite firstn_firstn, Nat.min_l by lia. f_equal.
    apply nth_error_ext. intros k.
    rewrite nth_error_skipn.
    destruct (Nat.lt_ge_cases k 3) as [Hk|Hk].
    - rewrite nth_error_firstn.
      destruct (Nat.ltb_spec (i - 3 + k) i); [|lia].
      destruct k as [|[|[|k]]]; [| | |lia]; simpl.
      + now rewrite Nat.add_0_r.
      + now replace (i - 3 + 1)%nat with (i - 2)%nat by lia.
      + now replace (i - 3 + 2)%nat with (i - 1)%nat by lia.
    - rewrite nth_error_firstn.
      destruct (Nat.ltb_spec (i - 3 + k) i); [lia|].
      symmetry. apply nth_error_None. simpl. lia. }
  split.
  - rewrite Hpre, Hd'. apply adams3Step_run.
  - exists a, b, c. repeat split. rewrite Hd'.
    apply (adams3Step_run self [] a b c h).
Qed.

End GridFacts.

Lemma grid_independent_witness :
  outcome_map (map x)
    (snd (solve Euler 10 (1#2)%Q 2%Q harmonic))
  = outcome_map (map x)
      (snd (solve RK4 10 (1#2)%Q 2%Q
              (construct (fun x y dy => x * y + dy)%Q 0 5 (-3#7))%Q)).
Proof.
  apply (grid_independent (T := Q)); [discriminate | discriminate |].
  reflexivity.
Defined.

Lemma adams_grid_witness :
  exists t ta : list (State Q),
    solve RK4 10 (1#2)%Q 2%Q harmonic = (harmonic, Returned t) /\
    solveAdams3 10 (1#2)%Q 2%Q harmonic = (harmonic, Returned ta) /\
    (length t <= length ta)%nat /\
    ((3 <= length t)%nat -> map x ta = map x t).
Proof.
  eexists. eexists.
  split; [vm_compute; reflexivity|].
  split; [vm_compute; reflexivity|].
  eapply (@adams_grid Q _ RK4 10 10 (1#2)%Q 2%Q harmonic harmonic).
  - discriminate.
  - reflexivity.
  - vm_compute; reflexivity.
  - vm_compute; reflexivity.
Defined.

Lemma single_step_recurrence_witness :
  exists traj : list (State Q),
    solve Euler 10 (1#2)%Q 1%Q harmonic = (harmonic, Returned traj) /\
    forall i a b,
      nth_error traj i = Some a -> nth_error traj (S i) = Some b ->
      step_of Euler a (1#2)%Q harmonic = (harmonic, Returned b).
Proof.
  eexists. split; [vm_compute; reflexivity|].
  eapply (@single_step_recurrence Q _ Euler 10 (1#2)%Q 1%Q harmonic).
  - discriminate.
  - vm_compute; reflexivity.
Defined.

Lemma adams_recurrence_witness :
  exists traj : list (State Q),
    solveAdams3 10 (1#2)%Q 2%Q harmonic = (harmonic, Returned traj) /\
    forall i d,
      (3 <= i)%nat -> nth_error traj i = Some d ->
      adams3Step (firstn i traj) (1#2)%Q harmonic = (harmonic, Returned d) /\
      exists a b c,
        nth_error traj (i - 3) = Some a /\
        nth_error traj (i - 2) = Some b /\
        nth_error traj (i - 1) = Some c /\
        adams3Step [a; b; c] (1#2)%Q harmonic = (harmonic, Returned d).
Proof.
  eexists. split; [vm_compute; reflexivity|].
  eapply (@adams_recurrence Q _ 10 (1#2)%Q 2%Q harmonic).
  vm_compute; reflexivity.
Defined.

(** * More on the solvers, in exact real arithmetic *)

Section Extent.

Local Open Scope R_scope.

Ltac scalar_R :=
  cbn [lit add sub mul div opp abs pow ltb Scalar_R] in *.

Lemma steps_bound_le (x0 h x_end : R) (n : nat) :
  0 < h -> x_end - h / 2 - x0 <= INR n * h ->
  (steps_bound x0 h x_end <= n)%nat.
Proof.
  intros Hh Hn. unfold steps_bound.
  set (r := (x_end - h / 2 - x0) / h).
  assert (Hr : r * h = x_end - h / 2 - x0) by (unfold r; field; lra).
  assert (Hle : r <= INR n).
  { apply Rmult_le_reg_r with h; [exact Hh | lra]. }
  destruct (Zceil_bound r) as [Hc _].
  rewrite INR_IZR_INZ in Hle.
  assert (Hz : (Zceil r < Z.of_nat n + 1)%Z).
  { apply lt_IZR. rewrite plus_IZR. lra. }
  lia.
Qed.

Lemma steps_bound_gt (x0 h x_end : R) (n : nat) :
  0 < h -> INR n * h < x_end - h / 2 - x0 ->
  (n < steps_bound x0 h x_end)%nat.
Proof.
  intros Hh Hn. unfold steps_bound.
  set (r := (x_end - h / 2 - x0) / h).
  assert (Hr : r * h = x_end - h / 2 - x0) by (unfold r; field; lra).
  assert (Hlt : INR n < r).
  { apply Rmult_lt_reg_r with h; [exact Hh | lra]. }
  destruct (Zceil_bound r) as [_ Hc].
  rewrite INR_IZR_INZ in Hlt.
  assert (Hz : (Z.of_nat n < Zceil r)%Z) by (apply lt_IZR; lra).
  lia.
Qed.

(** Where a returned trajectory ends, counted in steps from the initial x:
    the last point passed the exit test, and the one before it, when the
    loop appended the last point, did not. *)
Lemma returned_extent (m : Method) (fuel : nat) (h x_end : R)
    (self self' : ODESolver R) (traj : list (State R)) :
  solve m fuel h x_end self = (self', Returned traj) ->
  exists k,
    length traj = S k /\ (boot_points m <= S k)%nat /\
    nth_error traj 0 = Some (m_initial_state self) /\
    x_end - h / 2 <= x (m_initial_state self) + INR k * h /\
    ((boot_points m <= k)%nat ->
     x (m_initial_state self) + (INR k - 1) * h < x_end - h / 2).
Proof.
  intros Hrun.
  destruct (solve_partial m fuel h x_end self)
    as [Hto | (t & last & Hr & Ht & Hl & Hg)]; rewrite Hrun in *;
    [discriminate|].
  injection Hr as _ <-.
  pose proof (Trajectory_length Ht) as Hlen.
  rewrite bootstrap_length in Hlen.
  destruct (back_nth _ Hl) as [Hpos Hlast].
  assert (Hhd : nth_error traj 0 = Some (m_initial_state self)).
  { assert (Hh0 : hd_error traj = Some (m_initial_state self))
      by (apply (Trajectory_head Ht); now destruct m).
    destruct traj; [discriminate | exact Hh0]. }
  exists (length traj - 1)%nat.
  split; [lia|]. split; [lia|]. split; [exact Hhd|].
  pose proof (advances_far (traj_steps Ht)) as Hfar.
  split.
  - apply guard_false in Hg.
    rewrite (Hfar (length traj - 1)%nat 0%nat _ _ Hhd Hlast) in Hg. lra.
  - intros Hk.
    assert (Hb1 : (1 <= boot_points m)%nat) by (destruct m; simpl; lia).
    destruct (nth_error traj (length traj - 2)) as [a|] eqn:Ha;
      [|apply nth_error_None in Ha; lia].
    assert (Hga : guard h x_end a = true).
    { destruct Ht as [_ _ Hgd].
      apply (Hgd (length traj - 2)%nat); [|lia | exact Ha].
      rewrite bootstrap_length. lia. }
    apply guard_true in Hga.
    rewrite (Hfar (length traj - 2)%nat 0%nat _ _ Hhd Ha) in Hga.
    replace (INR (length traj - 1)) with (INR (length traj - 2) + 1).
    + lra.
    + rewrite <- S_INR. f_equal. lia.
Qed.

(** X5: for h > 0 a returned trajectory of [solveEuler] or [solveRK4] has
    exactly 1 + ceil((x_end - h/2 - x0) / h) points (1 when the ceiling is
    negative), and one of [solveAdams3] has that many or 3, whichever is
    more. *)
Theorem trajectory_length (m : Method) (fuel : nat) (h x_end : R)
    (self self' : ODESolver R) (traj : list (State R)) :
  0 < h ->
  solve m fuel h x_end self = (self', Returned traj) ->
  length traj
  = Nat.max (boot_points m)
            (1 + steps_bound (x (m_initial_state self)) h x_end).
Proof.
  intros Hh Hrun.
  destruct (returned_extent _ _ _ _ _ Hrun)
    as (k & Hlen & Hboot & _ & Hlast & Hprev).
  assert (Hle : (steps_bound (x (m_initial_state self)) h x_end <= k)%nat)
    by (apply steps_bound_le; [exact Hh | lra]).
  destruct (Nat.le_gt_cases (boot_points m) k) as [Hk|Hk]; [|lia].
  specialize (Hprev Hk).
  assert (Hk1 : (1 <= k)%nat) by (destruct m; simpl in Hk; lia).
  assert (Hgt : (k - 1 < steps_bound (x (m_initial_state self)) h x_end)%nat).
  { apply steps_bound_gt; [exact Hh|].
    rewrite minus_INR by exact Hk1. simpl INR. lra. }
  lia.
Qed.

Lemma trajectory_length_witness :
  length [mkState 0 0 1; mkState (0 + 1) (0 + 1 * 1) (1 + 1 * - 0)]
  = Nat.max (boot_points Euler)
            (1 + steps_bound (x (m_initial_state (T := R) harmonic)) 1 1).
Proof.
  apply (@trajectory_length Euler 1%nat 1 1 harmonic harmonic); [lra|].
  cbv [solve solveEuler harmonic construct bind this ret while
       push_back eulerStep system app m_initial_state m_ode
       x y dy lit add sub mul div opp ltb Scalar_R].
  rewrite Rltb_true by lra. rewrite Rltb_false by lra. reflexivity.
Defined.

(** ** The estimator on a fine and a coarse trajectory *)

(** With step h for the fine and 2h for the coarse trajectory, half the
    fine points (rounded up) are at most all coarse points and at least all
    but one. *)
Lemma fine_coarse_lengths (m1 m2 : Method) (fuel1 fuel2 : nat)
    (h x_end : R) (self1 self2 self1' self2' : ODESolver R)
    (fine coarse : list (State R)) :
  0 < h -> m1 <> Adams3 -> m2 <> Adams3 ->
  x (m_initial_state self1) = x (m_initial_state self2) ->
  solve m1 fuel1 h x_end self1 = (self1', Returned fine) ->
  solve m2 fuel2 (2 * h) x_end self2 = (self2', Returned coarse) ->
  (length coarse - 1 <= (length fine + 1) / 2 <= length coarse)%nat.
Proof.
  intros Hh Hm1 Hm2 Hx0 Hfine Hcoarse.
  destruct (returned_extent _ _ _ _ _ Hfine)
    as (kf & Hlf & _ & Hf0 & Hfl & Hfp).
  destruct (returned_extent _ _ _ _ _ Hcoarse)
    as (kc & Hlc & _ & Hc0 & Hcl & Hcp).
  replace (boot_points m1) with 1%nat in Hfp by (now destruct m1).
  replace (boot_points m2) with 1%nat in Hcp by (now destruct m2).
  rewrite <- Hx0 in Hcl, Hcp.
  set (x0 := x (m_initial_state self1)) in *.
  assert (Hup : (kf <= 2 * kc + 1)%nat).
  { destruct (Nat.le_gt_cases kf (2 * kc + 1)) as [Hle|Hgt]; [exact Hle|].
    exfalso. specialize (Hfp ltac:(lia)).
    assert (Hr : 2 * INR kc + 2 <= INR kf).
    { replace (2 * INR kc + 2) with (INR (2 * kc + 2))
        by (rewrite plus_INR, mult_INR; simpl; lra).
      apply le_INR. lia. }
    assert (Hm : (2 * INR kc + 2) * h <= INR kf * h)
      by (apply Rmult_le_compat_r; lra).
    lra. }
  assert (Hlow : (2 * kc <= kf + 2)%nat).
  { destruct (Nat.le_gt_cases (2 * kc) (kf + 2)) as [Hle|Hgt];
      [exact Hle|].
    exfalso. specialize (Hcp ltac:(lia)).
    assert (Hr : INR kf + 3 <= 2 * INR kc).
    { replace (INR kf + 3) with (INR (kf + 3))
        by (rewrite plus_INR; simpl; lra).
      replace (2 * INR kc) with (INR (2 * kc))
        by (rewrite mult_INR; simpl; lra).
      apply le_INR. lia. }
    assert (Hm : (INR kf + 3) * h <= 2 * INR kc * h)
      by (apply Rmult_le_compat_r; lra).
    lra. }
  assert (Hhalf : ((length fine + 1) / 2 = kf / 2 + 1)%nat).
  { rewrite Hlf. replace (S kf + 1)%nat with (kf + 1 * 2)%nat by lia.
    now rewrite Nat.div_add. }
  pose proof (Nat.div_mod_eq kf 2).
  pose proof (Nat.mod_upper_bound kf 2). lia.
Qed.

(** X6: when the fine trajectory is returned by [solveEuler] or [solveRK4]
    with step h > 0 and the coarse one with step 2h, from the same initial x
    to the same endpoint, [calculateRungeError] compares points at equal x,
    uses every second point of the fine trajectory, and leaves out at most
    the last point of the coarse one. *)
Theorem runge_alignment (m1 m2 : Method) (fuel1 fuel2 : nat)
    (h x_end p : R) (self1 self2 self1' self2' : ODESolver R)
    (fine coarse : list (State R)) :
  0 < h -> m1 <> Adams3 -> m2 <> Adams3 ->
  x (m_initial_state self1) = x (m_initial_state self2) ->
  solve m1 fuel1 h x_end self1 = (self1', Returned fine) ->
  solve m2 fuel2 (2 * h) x_end self2 = (self2', Returned coarse) ->
  exists errors,
    calculateRungeError fine coarse p = Returned errors /\
    length errors = ((length fine + 1) / 2)%nat /\
    (length coarse - 1 <= length errors <= length coarse)%nat /\
    forall i f c,
      nth_error fine (2 * i) = Some f -> nth_error coarse i = Some c ->
      x f = x c.
Proof.
  intros Hh Hm1 Hm2 Hx0 Hfine Hcoarse.
  pose proof (@fine_coarse_lengths m1 m2 fuel1 fuel2 h x_end self1 self2
                self1' self2' fine coarse Hh Hm1 Hm2 Hx0 Hfine Hcoarse)
    as Hlens.
  destruct (returned_extent _ _ _ _ _ Hfine) as (kf & _ & _ & Hf0 & _).
  destruct (returned_extent _ _ _ _ _ Hcoarse) as (kc & _ & _ & Hc0 & _).
  destruct (@runge_loop_from _ _ fine coarse p _ 0%nat [] eq_refl)
    as (rest & Hr & Hlen & _); [lia|].
  exists rest. split; [exact Hr|].
  assert (Hmin : aligned fine coarse = ((length fine + 1) / 2)%nat).
  { unfold aligned. apply Nat.min_l. lia. }
  rewrite Nat.sub_0_r, Hmin in Hlen.
  split; [exact Hlen|]. split; [lia|].
  intros i f c Hf Hc.
  destruct (solve_partial m1 fuel1 h x_end self1)
    as [Hto | (t & last & Hr1 & Ht1 & _)]; rewrite Hfine in *;
    [discriminate|].
  injection Hr1 as _ <-.
  destruct (solve_partial m2 fuel2 (2 * h) x_end self2)
    as [Hto | (t & last' & Hr2 & Ht2 & _)]; rewrite Hcoarse in *;
    [discriminate|].
  injection Hr2 as _ <-.
  rewrite (@advances_far _ _ (traj_steps Ht1) (2 * i)%nat 0%nat _ _ Hf0 Hf).
  rewrite (@advances_far _ _ (traj_steps Ht2) i 0%nat _ _ Hc0 Hc).
  rewrite mult_INR, Hx0. simpl INR. lra.
Qed.

Lemma runge_alignment_witness :
  exists fine coarse errors,
    solve Euler 2 1 2 harmonic = (harmonic, Returned fine) /\
    solve Euler 1 (2 * 1) 2 harmonic = (harmonic, Returned coarse) /\
    calculateRungeError fine coarse 1 = Returned errors /\
    length errors = ((length fine + 1) / 2)%nat /\
    (length coarse - 1 <= length errors <= length coarse)%nat /\
    forall i f c,
      nth_error fine (2 * i) = Some f -> nth_error coarse i = Some c ->
      x f = x c.
Proof.
  assert (Hfine : exists fine,
             solve Euler 2 1 2 harmonic = (harmonic, Returned fine)).
  { eexists.
    cbv [solve solveEuler harmonic construct bind this ret while
         push_back eulerStep system app m_initial_state m_ode
         x y dy lit add sub mul div opp ltb Scalar_R].
    do 2 rewrite Rltb_true by lra. rewrite Rltb_false by lra.
    reflexivity. }
  assert (Hcoarse : exists coarse,
             solve Euler 1 (2 * 1) 2 harmonic = (harmonic, Returned coarse)).
  { eexists.
    cbv [solve solveEuler harmonic construct bind this ret while
         push_back eulerStep system app m_initial_state m_ode
         x y dy lit add sub mul div opp ltb Scalar_R].
    rewrite Rltb_true by lra. rewrite Rltb_false by lra.
    reflexivity. }
  destruct Hfine as [fine Hfine]. destruct Hcoarse as [coarse Hcoarse].
  exists fine, coarse.
  destruct (@runge_alignment Euler Euler 2 1 1 2 1 harmonic harmonic
              harmonic harmonic fine coarse)
    as (errors & He); [lra | discriminate | discriminate | reflexivity
                       | exact Hfine | exact Hcoarse |].
  exists errors. split; [exact Hfine|]. split; [exact Hcoarse|]. exact He.
Defined.

(** X7: for an order p > 0 no estimate is negative. *)
Theorem runge_nonnegative (fine coarse : list (State R)) (p : R) :
  0 < p ->
  exists errors,
    calculateRungeError fine coarse p = Returned errors /\
    Forall (fun e => 0 <= e) errors.
Proof.
  intros Hp.
  destruct (@runge_loop_from _ _ fine coarse p _ 0%nat [] eq_refl)
    as (rest & Hr & _ & Hnth); [lia|].
  exists rest. split; [exact Hr|].
  apply Forall_forall. intros e He.
  destruct (In_nth_error _ _ He) as [j Hj].
  rewrite Hnth in Hj.
  destruct (j <? aligned fine coarse - 0)%nat; [|discriminate].
  unfold spec_error in Hj.
  destruct (nth_error fine (2 * (0 + j))) as [f|]; [|discriminate].
  destruct (nth_error coarse (0 + j)) as [c|]; [|discriminate].
  injection Hj as <-. scalar_R.
  assert (Hpow : Rpower 2 (- p) < 1).
  { unfold Rpower. rewrite <- exp_0. apply exp_increasing.
    pose proof ln_lt_2. nra. }
  apply Rmult_le_pos; [apply Rabs_pos|].
  left. apply Rinv_0_lt_compat. lra.
Qed.

Lemma runge_nonnegative_witness :
  exists errors,
    calculateRungeError [mkState 0 1 0; mkState 1 2 0] [mkState 0 3 0] 4
    = Returned errors /\
    Forall (fun e => 0 <= e) errors.
Proof. apply runge_nonnegative. lra. Defined.

End Extent.

(** * Equations the methods integrate without error *)

Section Exactness.

Local Open Scope R_scope.

Ltac scalar_R :=
  cbn [lit add sub mul div opp abs pow ltb Scalar_R] in *.

Lemma derivable_pt_lim_value (f : R -> R) (x l l' : R) :
  derivable_pt_lim f x l -> l = l' -> derivable_pt_lim f x l'.
Proof. now intros Hf <-. Qed.

Ltac derive_poly :=
  repeat first
    [ apply derivable_pt_lim_const
    | apply derivable_pt_lim_id
    | eapply derivable_pt_lim_minus
    | eapply derivable_pt_lim_plus
    | eapply derivable_pt_lim_opp
    | eapply derivable_pt_lim_mult ].

(** The quartic is the solution: its derivative is [quartic_dy], whose
    derivative is the right-hand side, and it starts at (x0, y0, dy0). *)
Lemma quartic_solves (a b c x0 y0 dy0 : R) :
  (forall x, derivable_pt_lim (quartic_y a b c x0 y0 dy0) x
                              (quartic_dy a b c x0 dy0 x)) /\
  (forall x, derivable_pt_lim (quartic_dy a b c x0 dy0) x
                              (forcing a b c x
                                 (quartic_y a b c x0 y0 dy0 x)
                                 (quartic_dy a b c x0 dy0 x))) /\
  on_quartic a b c x0 y0 dy0 (mkState x0 y0 dy0).
Proof.
  split; [|split].
  - intros x. unfold quartic_y, quartic_dy.
    eapply derivable_pt_lim_value; [derive_poly | cbv beta; field].
  - intros x. unfold quartic_dy, forcing.
    eapply derivable_pt_lim_value; [derive_poly | cbv beta; field].
  - unfold on_quartic, quartic_y, quartic_dy. simpl. split; field.
Qed.

Lemma rk4_keeps_quartic (a b c x0 y0 dy0 h : R) (s : State R) :
  on_quartic a b c x0 y0 dy0 s ->
  on_quartic a b c x0 y0 dy0 (spec_rk4Step (forcing a b c) s h).
Proof.
  intros [Hy Hdy]. unfold on_quartic, spec_rk4Step, forcing.
  simpl. scalar_R. rewrite Hy, Hdy. unfold quartic_y, quartic_dy.
  split; field.
Qed.


Lemma stepwise_all (link : State R -> State R -> Prop)
    (P : State R -> Prop) (v : list (State R)) (first : State R) :
  stepwise link v -> hd_error v = Some first -> P first ->
  (forall a b, P a -> link a b -> P b) ->
  forall s, In s v -> P s.
Proof.
  intros Hs Hhd Hfirst Hkeep s Hin.
  destruct (In_nth_error _ _ Hin) as [i Hi]. revert s Hi Hin.
  induction i as [|i IH]; intros s Hi _.
  - destruct v; [discriminate|]. simpl in Hhd, Hi. congruence.
  - destruct (nth_error v i) as [a|] eqn:Ha.
    + apply (Hkeep a s); [|now apply (Hs i)].
      apply IH; [reflexivity | eapply nth_error_In; eassumption].
    + apply nth_error_None in Ha.
      assert (nth_error v (S i) = None) by (apply nth_error_None; lia).
      congruence.
Qed.

(** X8: for an equation whose right-hand side is a + b x + c x^2,
    [solveRK4] makes no error: every point of a returned trajectory lies on
    the solution through the initial condition, in y and in dy, for any
    step h.  The solution is the quartic whose derivative is [quartic_dy],
    whose derivative in turn is the right-hand side. *)
Theorem solveRK4_exact_on_quadratic_forcing (a b c x0 y0 dy0 : R)
    (fuel : nat) (h x_end : R) (self' : ODESolver R)
    (traj : list (State R)) :
  solveRK4 fuel h x_end (construct (forcing a b c) x0 y0 dy0)
  = (self', Returned traj) ->
  (forall x, derivable_pt_lim (quartic_y a b c x0 y0 dy0) x
                              (quartic_dy a b c x0 dy0 x)) /\
  (forall x, derivable_pt_lim (quartic_dy a b c x0 dy0) x
                              (a + b * x + c * x * x)) /\
  quartic_y a b c x0 y0 dy0 x0 = y0 /\
  quartic_dy a b c x0 dy0 x0 = dy0 /\
  forall s, In s traj ->
    y s = quartic_y a b c x0 y0 dy0 (x s) /\
    dy s = quartic_dy a b c x0 dy0 (x s).
Proof.
  intros Hrun.
  destruct (quartic_solves a b c x0 y0 dy0) as (Hd1 & Hd2 & Hon).
  pose proof Hon as [Hy0 Hdy0]. simpl in Hy0, Hdy0.
  split; [exact Hd1|]. split; [exact Hd2|].
  split; [now symmetry|]. split; [now symmetry|].
  destruct (solveRK4_partial fuel h x_end
              (construct (forcing a b c) x0 y0 dy0))
    as [Hto | (t & last & Hr & Ht & _)]; rewrite Hrun in *; [discriminate|].
  injection Hr as _ <-.
  apply (@stepwise_all _ (on_quartic a b c x0 y0 dy0) _
           (mkState x0 y0 dy0) (traj_steps Ht)).
  - now apply (Trajectory_head Ht).
  - exact Hon.
  - intros s s' Hs ->. now apply rk4_keeps_quartic.
Qed.

Lemma solveRK4_exact_on_quadratic_forcing_witness :
  exists traj,
    solveRK4 1 1 1 (construct (forcing 1 2 3) 0 0 0)
    = (construct (forcing 1 2 3) 0 0 0, Returned traj) /\
    (2 <= length traj)%nat /\
    forall s, In s traj ->
      y s = quartic_y 1 2 3 0 0 0 (x s) /\
      dy s = quartic_dy 1 2 3 0 0 (x s).
Proof.
  assert (Hrun : exists traj,
             solveRK4 1 1 1 (construct (forcing 1 2 3) 0 0 0)
             = (construct (forcing 1 2 3) 0 0 0, Returned traj) /\
             (2 <= length traj)%nat).
  { eexists.
    cbv [solveRK4 construct bind this ret while push_back rk4Step system
         app m_initial_state m_ode x y dy lit add sub mul div opp ltb
         Scalar_R].
    rewrite Rltb_true by lra. rewrite Rltb_false by lra.
    split; [reflexivity | simpl; lia]. }
  destruct Hrun as (traj & Hrun & Hlen).
  exists traj. split; [exact Hrun|]. split; [exact Hlen|].
  apply (@solveRK4_exact_on_quadratic_forcing 1 2 3 0 0 0 1%nat 1 1
           _ traj Hrun).
Defined.



(** ** The reference solution of the driver *)

Lemma sqrt_one_plus_square (x : R) :
  0 < sqrt (1 + x * x) /\ sqrt (1 + x * x) * sqrt (1 + x * x) = 1 + x * x.
Proof.
  assert (Hpos : 0 < 1 + x * x) by nra.
  split; [now apply sqrt_lt_R0 | apply sqrt_sqrt; lra].
Qed.

Lemma exact_solution_derivative (x : R) :
  derivable_pt_lim exact_solution x (exact_solution_d1 x).
Proof.
  destruct (sqrt_one_plus_square x) as [Hr _].
  unfold exact_solution, exact_solution_d1.
  eapply derivable_pt_lim_value.
  - apply (derivable_pt_lim_plus (fun t => sqrt (1 + t * t))
                                 (fun t => exp (-2 * t))).
    + apply (derivable_pt_lim_comp (fun t => 1 + t * t) sqrt);
        [derive_poly | apply derivable_pt_lim_sqrt; nra].
    + apply (derivable_pt_lim_comp (fun t => -2 * t) exp);
        [derive_poly | apply derivable_pt_lim_exp].
  - cbv beta. field. lra.
Qed.

Lemma exact_solution_second_derivative (x : R) :
  derivable_pt_lim exact_solution_d1 x (exact_solution_d2 x).
Proof.
  destruct (sqrt_one_plus_square x) as [Hr Hrr].
  unfold exact_solution_d1, exact_solution_d2.
  eapply derivable_pt_lim_value.
  - apply (derivable_pt_lim_minus (fun t => t / sqrt (1 + t * t))
                                  (fun t => 2 * exp (-2 * t))).
    + apply (derivable_pt_lim_div (fun t => t)
                                  (fun t => sqrt (1 + t * t)));
        [derive_poly | | lra].
      apply (derivable_pt_lim_comp (fun t => 1 + t * t) sqrt);
        [derive_poly | apply derivable_pt_lim_sqrt; nra].
    + apply (derivable_pt_lim_mult (fun _ => 2) (fun t => exp (-2 * t)));
        [derive_poly|].
      apply (derivable_pt_lim_comp (fun t => -2 * t) exp);
        [derive_poly | apply derivable_pt_lim_exp].
  - cbv beta. unfold Rsqr.
    set (r := sqrt (1 + x * x)) in *. set (e := exp (-2 * x)).
    rewrite <- Hrr.
    assert (Hxx : x * x = r * r - 1) by lra.
    transitivity ((r - (r * r - 1) / r) / (r * r) + 4 * e).
    + rewrite <- Hxx. field. lra.
    + field. lra.
Qed.

(** X10: the reference solution of the driver has the initial values the
    driver gives the solver, y(0) = 2 and y'(0) = -2, but it does not solve
    the equation the driver integrates: at every x its second derivative
    exceeds [ode(x, y, y')] by 2 y / (1 + x^2), which is never 0.  (It
    solves the equation with + y / (1 + x^2) as the last term.) *)
Theorem exact_solution_misses_main_ode :
  (forall x, derivable_pt_lim exact_solution x (exact_solution_d1 x)) /\
  (forall x, derivable_pt_lim exact_solution_d1 x (exact_solution_d2 x)) /\
  exact_solution 0 = 2 /\ exact_solution_d1 0 = -2 /\
  forall x,
    exact_solution_d2 x
    = main_ode x (exact_solution x) (exact_solution_d1 x)
      + 2 * exact_solution x / (1 + x * x) /\
    exact_solution_d2 x
    <> main_ode x (exact_solution x) (exact_solution_d1 x).
Proof.
  split; [exact exact_solution_derivative|].
  split; [exact exact_solution_second_derivative|].
  split; [|split].
  - unfold exact_solution.
    replace (1 + 0 * 0) with 1 by ring. replace (-2 * 0) with 0 by ring.
    rewrite sqrt_1, exp_0. ring.
  - unfold exact_solution_d1.
    replace (1 + 0 * 0) with 1 by ring. replace (-2 * 0) with 0 by ring.
    rewrite sqrt_1, exp_0. field.
  - intros x.
    destruct (sqrt_one_plus_square x) as [Hr Hrr].
    assert (HD : 0 < 1 + x * x) by nra.
    assert (He : 0 < exp (-2 * x)) by apply exp_pos.
    assert (Heq : exact_solution_d2 x
                  = main_ode x (exact_solution x) (exact_solution_d1 x)
                    + 2 * exact_solution x / (1 + x * x)).
    { unfold exact_solution_d2, main_ode, exact_solution,
        exact_solution_d1.
      set (r := sqrt (1 + x * x)) in *. set (e := exp (-2 * x)) in *.
      transitivity
        ((3 - 2 * x + 4 * x * x) * e / (1 + x * x)
         - x / (1 + x * x) * (x / r - 2 * e)
         - 1 / (1 + x * x) * (r + e)
         + 2 * (r + e) / (1 + x * x)
         + (1 + x * x - r * r) / (r * (1 + x * x))).
      - field. lra.
      - rewrite Hrr. field. lra. }
    split; [exact Heq|].
    rewrite Heq.
    assert (Hpos : 0 < 2 * exact_solution x / (1 + x * x)).
    { unfold exact_solution. apply Rdiv_lt_0_compat; lra. }
    lra.
Qed.

End Exactness.

(** * The driver *)

Section DriverFacts.

Context {T : Type} `{Scalar T}.
Local Open Scope scalar_scope.

Lemma table_loop_step (exact : T -> T)
    (fine euler adams : list (State T)) (errors : list T) (i : Z)
    (rows : list (@Row T)) :
  table_loop exact fine euler adams errors i rows =
  if Z_lt_dec i (size fine) then
    match at_ fine i, at_ euler i, at_ adams i with
    | Some f, Some e, Some a =>
        if Z_lt_dec (i / 2) (size errors) then
          match at_ errors (i / 2) with
          | Some error =>
              table_loop exact fine euler adams errors (i + 2)
                (push_back rows
                   (mkRow (x f) (exact (x f)) (y f) (y e) (y a)
                          (Some error)))
          | None => Undefined
          end
        else
          table_loop exact fine euler adams errors (i + 2)
            (push_back rows
               (mkRow (x f) (exact (x f)) (y f) (y e) (y a) None))
    | _, _, _ => Undefined
    end
  else Returned rows.
Proof.
  rewrite table_loop_unfold_eq.
  unfold table_loop_unfold, table_loop_unfold_clause_1,
    table_loop_unfold_clause_1_clause_2,
    table_loop_unfold_clause_1_clause_2_clause_1,
    table_loop_unfold_clause_1_clause_2_clause_1_clause_1,
    table_loop_unfold_clause_1_clause_2_clause_1_clause_1_clause_1,
    table_loop_unfold_clause_1_clause_2_clause_1_clause_1_clause_1_clause_1.
  destruct (Z_lt_dec i (size fine)); [|reflexivity].
  destruct (at_ fine i), (at_ euler i), (at_ adams i); try reflexivity.
  destruct (Z_lt_dec (i / 2) (size errors)); [|reflexivity].
  destruct (at_ errors (i / 2)); reflexivity.
Qed.

(** With Euler and Adams trajectories at least as long as the fine one the
    loop reads nothing out of range and makes one row for every second fine
    point. *)
Lemma table_loop_from (exact : T -> T)
    (fine euler adams : list (State T)) (errors : list T) :
  (length fine <= length euler)%nat -> (length fine <= length adams)%nat ->
  forall d k rows,
    ((length fine + 1) / 2 - k = d)%nat ->
    (k <= (length fine + 1) / 2)%nat ->
    exists rest,
      table_loop exact fine euler adams errors (Z.of_nat (2 * k)) rows
      = Returned (rows ++ rest) /\
      length rest = d /\
      forall j, nth_error rest j =
                if (j <? d)%nat
                then spec_row exact fine euler adams errors (k + j)
                else None.
Proof.
  intros He Ha.
  pose proof (Nat.div_mod_eq (length fine + 1) 2) as Hdm.
  pose proof (Nat.mod_upper_bound (length fine + 1) 2 ltac:(lia)) as Hmod.
  induction d as [|d IH]; intros k rows Hd Hk; rewrite table_loop_step.
  - exists []. rewrite app_nil_r. split; [|split; [reflexivity|]].
    + destruct (Z_lt_dec _ _) as [Hf|]; [|reflexivity].
      unfold size in Hf. lia.
    + intros j. now destruct j.
  - assert (Hf : (2 * k < length fine)%nat) by lia.
    destruct (Z_lt_dec _ _) as [_|Hn]; [|unfold size in Hn; lia].
    rewrite !at_nat.
    destruct (nth_error fine (2 * k)) as [f|] eqn:Ef;
      [|apply nth_error_None in Ef; lia].
    destruct (nth_error euler (2 * k)) as [e|] eqn:Ee;
      [|apply nth_error_None in Ee; lia].
    destruct (nth_error adams (2 * k)) as [a|] eqn:Ea;
      [|apply nth_error_None in Ea; lia].
    replace (Z.of_nat (2 * k) / 2)%Z with (Z.of_nat k)
      by (rewrite Nat2Z.inj_mul, Z.mul_comm, Z.div_mul; lia).
    replace (Z.of_nat (2 * k) + 2)%Z with (Z.of_nat (2 * S k)) by lia.
    set (row := mkRow (x f) (exact (x f)) (y f) (y e) (y a)
                      (nth_error errors k)).
    assert (Hloop : exists rest,
               table_loop exact fine euler adams errors
                 (Z.of_nat (2 * S k)) (push_back rows row)
               = Returned (push_back rows row ++ rest) /\
               length rest = d /\
               forall j, nth_error rest j =
                         if (j <? d)%nat
                         then spec_row exact fine euler adams errors
                                       (S k + j)
                         else None)
      by (apply IH; lia).
    destruct Hloop as (rest & Hr & Hlen & Hnth).
    exists (row :: rest). split; [|split].
    + subst row.
      destruct (Z_lt_dec (Z.of_nat k) (size errors)) as [Hlt|Hge].
      * rewrite at_nat.
        destruct (nth_error errors k) as [err|] eqn:Eerr;
          [|apply nth_error_None in Eerr; unfold size in Hlt; lia].
        rewrite Hr. unfold push_back. now rewrite <- app_assoc.
      * assert (Eerr : nth_error errors k = None)
          by (apply nth_error_None; unfold size in Hge; lia).
        rewrite Eerr in *. rewrite Hr. unfold push_back.
        now rewrite <- app_assoc.
    + simpl. now rewrite Hlen.
    + intros [|j].
      * simpl. unfold spec_row. rewrite Nat.add_0_r, Ef, Ee, Ea.
        reflexivity.
      * simpl nth_error. rewrite Hnth.
        replace (k + S j)%nat with (S k + j)%nat by lia.
        reflexivity.
Qed.

(** The x coordinates of a single-step trajectory are the first x
    coordinates of the Adams trajectory over the same grid. *)
Lemma adams_grid_prefix (m : Method) (fuel1 fuel2 : nat) (h x_end : T)
    (self self1' self2' : ODESolver T) (t ta : list (State T)) :
  m <> Adams3 ->
  solve m fuel1 h x_end self = (self1', Returned t) ->
  solveAdams3 fuel2 h x_end self = (self2', Returned ta) ->
  exists rest, map x ta = map x t ++ rest.
Proof.
  intros Hm Ht Hta.
  destruct (solve_single_grid fuel1 h x_end self Hm) as (o1 & Ho1 & Hg1).
  rewrite Ht in Ho1. injection Ho1 as _ <-. simpl in Hg1.
  destruct (solveAdams3_grid fuel2 h x_end self) as (o2 & Ho2 & Hg2).
  rewrite Hta in Ho2. injection Ho2 as _ <-. simpl in Hg2.
  destruct (grid fuel2 h x_end _) as [l2| | |] eqn:Hgrid2; try discriminate.
  simpl in Hg2. injection Hg2 as Hg2. rewrite Hg2. symmetry in Hg1.
  destruct (grid_head _ _ _ _ Hg1) as [l1 Hl1]. rewrite Hl1 in Hg1 |- *.
  destruct l1 as [|b l1]; [now eexists|].
  destruct (grid_unfold _ _ _ _ Hg1) as [_ (f1 & Hg1')].
  destruct (grid_head _ _ _ _ Hg1') as [l1' Hl1']. injection Hl1' as -> _.
  destruct l1 as [|c l1]; [now eexists|].
  destruct (grid_unfold _ _ _ _ Hg1') as [_ (f2 & Hg1'')].
  rewrite (@grid_fuel_irrelevant _ _ h x_end _ _ _ _ _ Hgrid2 Hg1'').
  exists []. now rewrite app_nil_r.
Qed.

Lemma prefix_nth {A} (l l' rest : list A) (i : nat) (a a' : A) :
  l' = l ++ rest -> nth_error l i = Some a -> nth_error l' i = Some a' ->
  a' = a.
Proof.
  intros -> Ha Ha'.
  rewrite nth_error_app1 in Ha' by (apply nth_error_Some; congruence).
  congruence.
Qed.

(** Once the four solve calls have returned, the driver returns its table:
    nothing is read out of range, and a row holds samples of the three
    methods at one and the same x. *)
Lemma driver_run (fuel : nat) (exact : T -> T) (h_fine h_coarse x_end : T)
    (self : ODESolver T) (fine coarse euler adams : list (State T)) :
  solveRK4 fuel h_fine x_end self = (self, Returned fine) ->
  solveRK4 fuel h_coarse x_end self = (self, Returned coarse) ->
  solveEuler fuel h_fine x_end self = (self, Returned euler) ->
  solveAdams3 fuel h_fine x_end self = (self, Returned adams) ->
  exists errors rows,
    calculateRungeError fine coarse (lit 4) = Returned errors /\
    length errors = aligned fine coarse /\
    driver fuel exact h_fine h_coarse x_end self = (self, Returned rows) /\
    length rows = ((length fine + 1) / 2)%nat /\
    forall j, (j < length rows)%nat ->
      exists f e a,
        nth_error fine (2 * j) = Some f /\
        nth_error euler (2 * j) = Some e /\
        nth_error adams (2 * j) = Some a /\
        x e = x f /\ x a = x f /\
        nth_error rows j
        = Some (mkRow (x f) (exact (x f)) (y f) (y e) (y a)
                      (nth_error errors j)).
Proof.
  intros Hfine Hcoarse Heuler Hadams.
  assert (Hxe : map x euler = map x fine).
  { destruct (@solve_single_grid _ _ Euler fuel h_fine x_end self)
      as (oe & Hoe & Hge); [discriminate|].
    destruct (@solve_single_grid _ _ RK4 fuel h_fine x_end self)
      as (orr & Hor & Hgr); [discriminate|].
    simpl solve in Hoe, Hor. rewrite Heuler in Hoe. rewrite Hfine in Hor.
    injection Hoe as <-. injection Hor as <-.
    rewrite <- Hgr in Hge. simpl in Hge. now injection Hge. }
  destruct (@adams_grid_prefix RK4 fuel fuel h_fine x_end self self self
              fine adams) as [rest Hxa]; [discriminate | exact Hfine
                                          | exact Hadams |].
  assert (Hle : (length fine <= length euler)%nat).
  { apply (f_equal (@length _)) in Hxe. rewrite !length_map in Hxe. lia. }
  assert (Hla : (length fine <= length adams)%nat).
  { apply (f_equal (@length _)) in Hxa.
    rewrite length_app, !length_map in Hxa. lia. }
  destruct (@runge_loop_from _ _ fine coarse (lit 4) _ 0%nat [] eq_refl)
    as (errors & Herr & Hlen_err & _); [lia|].
  destruct (@table_loop_from exact fine euler adams errors Hle Hla
              _ 0%nat [] eq_refl) as (rows & Hrows & Hlen & Hnth); [lia|].
  rewrite Nat.sub_0_r in Hlen, Hlen_err.
  exists errors, rows. split; [exact Herr|]. split; [exact Hlen_err|].
  split; [|split; [exact Hlen|]].
  - assert (Herr' : calculateRungeError fine coarse (lit 4)
                     = Returned errors) by exact Herr.
    unfold driver, bind, lift.
    rewrite Hfine, Hcoarse, Heuler, Hadams, Herr'.
    f_equal. exact Hrows.
  - intros j Hj. specialize (Hnth j).
    rewrite Nat.sub_0_r, <- Hlen in Hnth.
    destruct (Nat.ltb_spec j (length rows)); [|lia].
    unfold spec_row in Hnth. simpl in Hnth.
    destruct (nth_error rows j) as [row|] eqn:Hrow;
      [|apply nth_error_None in Hrow; lia].
    destruct (nth_error fine (j + (j + 0))) as [f|] eqn:Hf;
      [|discriminate].
    destruct (nth_error euler (j + (j + 0))) as [e|] eqn:He;
      [|discriminate].
    destruct (nth_error adams (j + (j + 0))) as [a|] eqn:Ha;
      [|discriminate].
    exists f, e, a. simpl. rewrite Hf, He, Ha.
    split; [reflexivity|]. split; [reflexivity|].
    split; [reflexivity|].
    assert (Hxf : nth_error (map x fine) (j + (j + 0)) = Some (x f))
      by (now rewrite nth_error_map, Hf).
    split; [|split; [|exact Hnth]].
    + assert (Hx : nth_error (map x euler) (j + (j + 0)) = Some (x e))
        by (now rewrite nth_error_map, He).
      rewrite Hxe in Hx. congruence.
    + assert (Hx : nth_error (map x adams) (j + (j + 0)) = Some (x a))
        by (now rewrite nth_error_map, Ha).
      exact (@prefix_nth _ _ _ _ _ _ _ Hxa Hxf Hx).
Qed.


(** X11: whatever the arithmetic, the step sizes and the endpoint, the
    driver reads no vector out of range: if its four solve calls return,
    it returns a table with one row for every second point of the fine RK4
    trajectory, and a row holds the x of that point, the reference value at
    that x, and the y of the RK4, Euler and Adams trajectories at points
    with that same x, with the error estimate of that index if there is
    one. *)
Theorem driver_reads_in_range (fuel : nat) (exact : T -> T)
    (h_fine h_coarse x_end : T) (self : ODESolver T) :
  driver fuel exact h_fine h_coarse x_end self = (self, Timeout) \/
  exists fine coarse euler adams errors rows,
    solveRK4 fuel h_fine x_end self = (self, Returned fine) /\
    solveRK4 fuel h_coarse x_end self = (self, Returned coarse) /\
    solveEuler fuel h_fine x_end self = (self, Returned euler) /\
    solveAdams3 fuel h_fine x_end self = (self, Returned adams) /\
    calculateRungeError fine coarse (lit 4) = Returned errors /\
    driver fuel exact h_fine h_coarse x_end self = (self, Returned rows) /\
    length rows = ((length fine + 1) / 2)%nat /\
    forall j, (j < length rows)%nat ->
      exists f e a,
        nth_error fine (2 * j) = Some f /\
        nth_error euler (2 * j) = Some e /\
        nth_error adams (2 * j) = Some a /\
        x e = x f /\ x a = x f /\
        nth_error rows j
        = Some (mkRow (x f) (exact (x f)) (y f) (y e) (y a)
                      (nth_error errors j)).
Proof.
  destruct (solveRK4_partial fuel h_fine x_end self)
    as [T1 | (fine & ? & R1 & _)].
  { left. unfold driver, bind. now rewrite T1. }
  destruct (solveRK4_partial fuel h_coarse x_end self)
    as [T2 | (coarse & ? & R2 & _)].
  { left. unfold driver, bind. now rewrite R1, T2. }
  destruct (solveEuler_partial fuel h_fine x_end self)
    as [T3 | (euler & ? & R3 & _)].
  { left. unfold driver, bind. now rewrite R1, R2, T3. }
  destruct (solveAdams3_partial fuel h_fine x_end self)
    as [T4 | (adams & ? & R4 & _)].
  { left. unfold driver, bind. now rewrite R1, R2, R3, T4. }
  right.
  destruct (@driver_run fuel exact h_fine h_coarse x_end self
              fine coarse euler adams R1 R2 R3 R4)
    as (errors & rows & He & _ & Hd & Hlen & Hrows).
  exists fine, coarse, euler, adams, errors, rows. auto 10.
Qed.

End DriverFacts.

Section DriverExact.

Local Open Scope R_scope.

Ltac scalar_R :=
  cbn [lit add sub mul div opp abs pow ltb Scalar_R] in *.



(** X12: in exact arithmetic, with h_fine > 0, h_coarse = 2 h_fine and
    fuel for ceil((x_end - h_fine/2 - x0) / h_fine) steps, the driver
    returns its table, and every row of it carries an error estimate. *)
Theorem driver_rows_have_estimates (fuel : nat) (exact : R -> R)
    (h_fine h_coarse x_end : R) (self : ODESolver R) :
  0 < h_fine -> h_coarse = 2 * h_fine ->
  (steps_bound (x (m_initial_state self)) h_fine x_end <= fuel)%nat ->
  exists rows,
    driver fuel exact h_fine h_coarse x_end self = (self, Returned rows) /\
    (1 <= length rows)%nat /\
    forall row, In row rows -> row_error row <> None.
Proof.
  intros Hh -> Hfuel.
  pose proof (steps_bound_enough (x (m_initial_state self)) x_end Hh)
    as Hn.
  set (n := steps_bound (x (m_initial_state self)) h_fine x_end) in *.
  assert (Hn0 : 0 <= INR n * h_fine)
    by (apply Rmult_le_pos; [apply pos_INR | lra]).
  destruct (@solve_total RK4 fuel n h_fine x_end self Hh Hn Hfuel)
    as (fine & R1 & _).
  destruct (@solve_total RK4 fuel n (2 * h_fine) x_end self)
    as (coarse & R2 & _); [lra | lra | exact Hfuel |].
  destruct (@solve_total Euler fuel n h_fine x_end self Hh Hn Hfuel)
    as (euler & R3 & _).
  destruct (@solve_total Adams3 fuel n h_fine x_end self Hh Hn Hfuel)
    as (adams & R4 & _).
  simpl solve in R1, R2, R3, R4.
  destruct (@driver_run R _ fuel exact h_fine (2 * h_fine) x_end self
              fine coarse euler adams R1 R2 R3 R4)
    as (errors & rows & _ & Hlen_err & Hd & Hlen & Hrows).
  assert (Hlens : (length coarse - 1 <= (length fine + 1) / 2
                   <= length coarse)%nat).
  { apply (@fine_coarse_lengths RK4 RK4 fuel fuel h_fine x_end self self
             self self fine coarse);
      [exact Hh | discriminate | discriminate | reflexivity
       | exact R1 | exact R2]. }
  assert (Hmin : aligned fine coarse = ((length fine + 1) / 2)%nat).
  { unfold aligned. apply Nat.min_l. lia. }
  assert (Hpos : (1 <= length fine)%nat).
  { destruct (returned_extent RK4 _ _ _ _ R1) as (k & Hk & _). lia. }
  exists rows. split; [exact Hd|]. split.
  - rewrite Hlen.
    replace (length fine + 1)%nat with (length fine - 1 + 1 * 2)%nat by lia.
    rewrite Nat.div_add by lia. lia.
  - intros row Hin. destruct (In_nth_error _ _ Hin) as [j Hj].
    assert (Hlt : (j < length rows)%nat)
      by (apply nth_error_Some; congruence).
    destruct (Hrows j Hlt) as (f & e & a & _ & _ & _ & _ & _ & Hrow).
    rewrite Hj in Hrow. injection Hrow as ->. simpl.
    apply nth_error_Some. lia.
Qed.

(** [main] itself: h_fine = 0.05, h_coarse = 0.1, x_end = 1. *)
Lemma driver_rows_have_estimates_witness :
  exists rows,
    main (steps_bound 0 (5 / 100) 1) = Returned rows /\
    (1 <= length rows)%nat /\
    forall row, In row rows -> row_error row <> None.
Proof.
  destruct (@driver_rows_have_estimates
              (steps_bound 0 (5 / 100) 1) exact_solution
              (5 / 100) (1 / 10) 1 (construct main_ode 0 2 (-2)))
    as (rows & Hd & Hrows); [lra | lra | apply le_n |].
  exists rows. split; [|exact Hrows].
  unfold main. cbv zeta. now rewrite Hd.
Defined.

End DriverExact.

Lemma driver_reads_in_range_witness :
  exists rows : list (@Row Q),
    snd (driver 30 (fun x => x) (1#2)%Q 1%Q 2%Q harmonic) = Returned rows /\
    length rows = 3%nat /\
    Forall (fun row => row_error row <> None) rows.
Proof.
  destruct (driver_reads_in_range (T := Q) 30 (fun x => x)
              (1#2)%Q 1%Q 2%Q harmonic)
    as [Hto | (fine & coarse & euler & adams & errors & rows & _ & _ & _
               & _ & _ & Hd & _)].
  - vm_compute in Hto. discriminate.
  - eexists. split; [vm_compute; reflexivity|].
    split; [reflexivity|].
    repeat constructor; discriminate.
Defined.
